(** * week1/chat_server.py: the multi-client chat server

    A shallow embedding of [ChatServer] (registry, broadcast, whisper and the
    per-connection worker) together with the properties of its routing
    behaviour.  Python strings are sequences of Unicode code points, the
    registry is Python's insertion-ordered [dict], and socket I/O is a
    state-and-exception monad over an explicit trace of I/O events. *)

From Stdlib Require Import String Ascii NArith.
From stdpp Require Import base option list gmap.

Set Default Proof Using "Type".

(** ** Python strings *)

Module PyStr.

(** A [str] is a sequence of code points. *)
Abbreviation pystr := (list N).

(** Source literals are written as in the file (UTF-8) and decoded once. *)
Fixpoint utf8_decode (bs : list N) : pystr :=
  match bs with
  | [] => []
  | b0 :: r0 =>
    if (b0 <? 128)%N then b0 :: utf8_decode r0
    else match r0 with
    | [] => []
    | b1 :: r1 =>
      if (b0 <? 224)%N
      then ((b0 mod 32) * 64 + b1 mod 64)%N :: utf8_decode r1
      else match r1 with
      | [] => []
      | b2 :: r2 =>
        if (b0 <? 240)%N
        then ((b0 mod 16) * 4096 + (b1 mod 64) * 64 + b2 mod 64)%N
               :: utf8_decode r2
        else match r2 with
        | [] => []
        | b3 :: r3 =>
          ((b0 mod 8) * 262144 + (b1 mod 64) * 4096
             + (b2 mod 64) * 64 + b3 mod 64)%N :: utf8_decode r3
        end
      end
    end
  end.

Fixpoint bytes_of (s : string) : list N :=
  match s with
  | EmptyString => []
  | String a r => N_of_ascii a :: bytes_of r
  end.

Definition lit (s : string) : pystr := utf8_decode (bytes_of s).
Arguments lit : simpl never.

(** [str.isspace] for one character: CPython's [_PyUnicode_IsWhitespace]. *)
Definition isspace (c : N) : bool :=
  ((9 <=? c) && (c <=? 13) || (28 <=? c) && (c <=? 32)
   || (c =? 133) || (c =? 160) || (c =? 5760)
   || (8192 <=? c) && (c <=? 8202)
   || (c =? 8232) || (c =? 8233) || (c =? 8239) || (c =? 8287)
   || (c =? 12288))%N.

Fixpoint lstrip (s : pystr) : pystr :=
  match s with
  | [] => []
  | c :: r => if isspace c then lstrip r else s
  end.

Fixpoint rstrip (s : pystr) : pystr :=
  match s with
  | [] => []
  | c :: r =>
    match rstrip r with
    | [] => if isspace c then [] else [c]
    | r' => c :: r'
    end
  end.

(** [s.strip()] *)
Definition strip (s : pystr) : pystr := rstrip (lstrip s).

(** [s.startswith(p)] *)
Fixpoint startswith (p s : pystr) : bool :=
  match p, s with
  | [], _ => true
  | _ :: _, [] => false
  | a :: p', b :: s' => (a =? b)%N && startswith p' s'
  end.

(** First occurrence of [sep]: the text before it and, when found, the text
    after it. *)
Fixpoint partition_at (sep : N) (s : pystr) : pystr * option pystr :=
  match s with
  | [] => ([], None)
  | c :: r =>
    if (c =? sep)%N then ([], Some r)
    else let '(pre, post) := partition_at sep r in (c :: pre, post)
  end.

(** [s.split(sep, maxsplit)] for a one-character separator. *)
Fixpoint split (sep : N) (maxsplit : nat) (s : pystr) : list pystr :=
  match maxsplit with
  | O => [s]
  | S m =>
    match partition_at sep s with
    | (pre, None) => [pre]
    | (pre, Some post) => pre :: split sep m post
    end
  end.

Definition SPACE : N := 32.
Definition NEWLINE : N := 10.

End PyStr.
Import PyStr.

(** ** The registry: Python's insertion-ordered [dict] *)

(** A socket object, by identity. *)
Definition sock := nat.

Module Dict.

Abbreviation dict := (list (sock * pystr)).

Definition keys (d : dict) : list sock := d.*1.

(** [d.get(k)] *)
Fixpoint get (k : sock) (d : dict) : option pystr :=
  match d with
  | [] => None
  | (k', v) :: r => if decide (k = k') then Some v else get k r
  end.

(** [k in d] *)
Definition contains (k : sock) (d : dict) : bool := bool_decide (is_Some (get k d)).

(** [d[k] = v]: an existing key keeps its position, a new key goes last. *)
Fixpoint set (k : sock) (v : pystr) (d : dict) : dict :=
  match d with
  | [] => [(k, v)]
  | (k', v') :: r =>
    if decide (k = k') then (k, v) :: r else (k', v') :: set k v r
  end.

(** The mapping left by [d.pop(k, None)]. *)
Fixpoint remove (k : sock) (d : dict) : dict :=
  match d with
  | [] => []
  | (k', v) :: r => if decide (k = k') then r else (k', v) :: remove k r
  end.

(** [d.pop(k, None)]: the value removed, if any, and the mapping left. *)
Definition pop (k : sock) (d : dict) : option pystr * dict := (get k d, remove k d).

(** Keys of a [dict] are unique. *)
Definition wf (d : dict) : Prop := NoDup (keys d).

End Dict.
Import Dict.

(** ** Sockets, exceptions and the I/O monad *)

Inductive exn :=
| ConnectionResetError
| ConnectionAbortedError
| BrokenPipeError
| OSError
| UnicodeDecodeError
| KeyError
| ValueError.

Inductive event :=
| EvAcquire                                   (* clients_lock acquired *)
| EvRelease                                   (* clients_lock released *)
| EvSent (s : sock) (data : pystr)            (* sendall returned *)
| EvSendFailed (s : sock) (data : pystr) (e : exn)   (* sendall raised *)
| EvClose (s : sock)                          (* close() called *)
| EvSystem (message : pystr).                 (* _broadcast_system entered *)

Record world := World {
  clients : dict;               (* self.clients *)
  peer_fault : gmap sock exn;   (* connections whose peer is gone: what a write raises *)
  closed : gset sock            (* sockets closed on this side *)
}.

Inductive result (A : Type) :=
| Ok (a : A)
| Raise (e : exn).
Arguments Ok {A} a.
Arguments Raise {A} e.

Record outcome (A : Type) := Out {
  res : result A;
  st : world;
  evs : list event
}.
Arguments Out {A} res st evs.
Arguments res {A} o.
Arguments st {A} o.
Arguments evs {A} o.

Definition M (A : Type) : Type := world → outcome A.

Definition ret {A} (a : A) : M A := λ w, Out (Ok a) w [].

(** [tr] happened, then [o]. *)
Definition prepend {A} (tr : list event) (o : outcome A) : outcome A :=
  Out (res o) (st o) (tr ++ evs o).

Definition bind {A B} (m : M A) (k : A → M B) : M B := λ w,
  match m w with
  | Out (Ok a) w' tr => prepend tr (k a w')
  | Out (Raise e) w' tr => Out (Raise e) w' tr
  end.

Definition raise {A} (e : exn) : M A := λ w, Out (Raise e) w [].

(** [try: m except Exception: h(e)] *)
Definition try_except {A} (m : M A) (h : exn → M A) : M A := λ w,
  match m w with
  | Out (Ok a) w' tr => Out (Ok a) w' tr
  | Out (Raise e) w' tr => prepend tr (h e w')
  end.

Definition emit (ev : event) : M unit := λ w, Out (Ok tt) w [ev].
Definition gets {A} (f : world → A) : M A := λ w, Out (Ok (f w)) w [].
Definition modify (f : world → world) : M unit := λ w, Out (Ok tt) (f w) [].

#[global] Instance M_ret : MRet M := @ret.
#[global] Instance M_bind : MBind M := λ A B k m, bind m k.

(** [with self.clients_lock: m]; the lock is released on every exit. *)
Definition with_lock {A} (m : M A) : M A := λ w,
  match m w with
  | Out r w' tr => Out r w' (EvAcquire :: tr ++ [EvRelease])
  end.

(** What a write to [s] raises, if it raises. *)
Definition send_fault (w : world) (s : sock) : option exn :=
  if decide (s ∈ closed w) then Some OSError else peer_fault w !! s.

(** [sock.sendall(data)] *)
Definition sendall (s : sock) (data : pystr) : M unit := λ w,
  match send_fault w s with
  | Some e => Out (Raise e) w [EvSendFailed s data e]
  | None => Out (Ok tt) w [EvSent s data]
  end.

(** [sock.close()] *)
Definition close (s : sock) : M unit := λ w,
  Out (Ok tt) (World (clients w) (peer_fault w) ({[s]} ∪ closed w)) [EvClose s].

Definition set_clients (f : dict → dict) (w : world) : world :=
  World (f (clients w)) (peer_fault w) (closed w).

(** What [sock.recv] followed by [decode] yields: text (empty when the peer
    closed the stream) or an exception. *)
Inductive recv_outcome :=
| RecvText (data : pystr)
| RecvRaise (e : exn).

(** ** ChatServer *)

Module ChatServer.

(** The string literals of the file. *)
Definition QUIT : pystr := Eval cbv in lit "/종료".
Definition WHISPER_W : pystr := Eval cbv in lit "/w ".
Definition WHISPER_KO : pystr := Eval cbv in lit "/귓속말 ".
Definition PROMPT : pystr := Eval cbv in lit "> ".
Definition SERVER : pystr := Eval cbv in lit "서버> ".
Definition JOINED : pystr := Eval cbv in lit "님이 입장하셨습니다.".
Definition LEFT : pystr := Eval cbv in lit "님이 퇴장하셨습니다.".
Definition FAREWELL : pystr :=
  Eval cbv in lit "서버> 연결을 종료합니다. 안녕히 가세요.".
Definition USAGE : pystr := Eval cbv in lit "서버> 사용법: /w 닉네임 메시지".
Definition NOT_FOUND : pystr :=
  Eval cbv in lit "서버> 대상 닉네임을 찾을 수 없습니다: ".
Definition WHISPER : pystr := Eval cbv in lit "(귓속말) ".
Definition WHISPER_SENT : pystr := Eval cbv in lit "(귓속말 보냄) ".
Definition ARROW : pystr := Eval cbv in lit " -> ".


(** [_send_text]: the text and a newline, encoded; the model keeps the
    payload as text. *)
Definition _send_text (s : sock) (text : pystr) : M unit :=
  sendall s (text ++ [NEWLINE]).

(** [_recv_text], given what the socket yields. *)
Definition _recv_text (r : recv_outcome) : M pystr :=
  match r with
  | RecvText data => ret data
  | RecvRaise e => raise e
  end.

(** The first loop of [_broadcast]: one write per registered socket, the
    sockets whose write raised are collected in [dead]. *)
Fixpoint send_each (socks : list sock) (text : pystr) : M (list sock) :=
  match socks with
  | [] => ret []
  | s :: rest =>
    d ← try_except (_send_text s text;; ret []) (λ _, ret [s]);
    ds ← send_each rest text;
    ret (d ++ ds)
  end.

(** The second loop of [_broadcast]: dead sockets are popped and closed; the
    branch on the popped nickname does nothing. *)
Fixpoint sweep (dead : list sock) : M unit :=
  match dead with
  | [] => ret tt
  | s :: rest =>
    nick ← gets (λ w, get s (clients w));
    modify (set_clients (remove s));;
    close s;;
    sweep rest
  end.

Definition _broadcast (text : pystr) : M unit :=
  with_lock (
    socks ← gets (λ w, keys (clients w));
    dead ← send_each socks text;
    sweep dead).

Definition _broadcast_chat (nickname message : pystr) : M unit :=
  _broadcast (nickname ++ PROMPT ++ message).

Definition _broadcast_system (message : pystr) : M unit :=
  emit (EvSystem message);;
  _broadcast (SERVER ++ message).

(** The scan of [_find_socket_by_name]: the first entry, in iteration order,
    whose nickname is [name]. *)
Fixpoint find_nick (name : pystr) (d : dict) : option sock :=
  match d with
  | [] => None
  | (s, nick) :: r => if decide (nick = name) then Some s else find_nick name r
  end.

Definition _find_socket_by_name (name : pystr) : M (option sock) :=
  with_lock (gets (λ w, find_nick name (clients w))).

(** Lines 109-117 of [_handle_whisper]: resolve the target and deliver. *)
Definition whisper (sender target_name body : pystr) (client_socket : sock)
  : M unit :=
  target_sock ← _find_socket_by_name target_name;
  match target_sock with
  | None =>
    _send_text client_socket
      (NOT_FOUND ++ target_name)
  | Some target_sock =>
    _send_text target_sock (WHISPER ++ sender ++ PROMPT ++ body);;
    if decide (target_sock ≠ client_socket)
    then _send_text client_socket
           (WHISPER_SENT ++ sender ++ ARROW ++ target_name ++ PROMPT ++ body)
    else ret tt
  end.

Definition _handle_whisper (sender raw : pystr) (client_socket : sock)
  : M unit :=
  let parts := split SPACE 2 raw in
  if bool_decide (length parts < 3)
  then _send_text client_socket USAGE
  else match parts with
       | [_; target_name; body] => whisper sender target_name body client_socket
       | _ => raise ValueError
       end.

(** *** The worker [_handle_client] *)

(** Where a worker stands between two reads of its socket; [Active] carries
    the local variable [nickname]. *)
Inductive phase :=
| AwaitingNickname
| Active (nickname : pystr)
| Closed.

(** [self.clients.pop(client_socket)] *)
Definition pop_client (s : sock) : M pystr := λ w,
  match pop s (clients w) with
  | (Some nick, d) => Out (Ok nick) (set_clients (λ _, d) w) []
  | (None, _) => Out (Raise KeyError) w []
  end.

(** The [finally] block, entered with the current value of [nickname]. *)
Definition finally_block (client_socket : sock) (nickname : pystr) : M unit :=
  nickname ← with_lock (
    existed ← gets (λ w, contains client_socket (clients w));
    if existed : bool then pop_client client_socket else ret nickname);
  try_except (close client_socket) (λ _, ret tt);;
  match nickname with
  | [] => ret tt
  | _ => _broadcast_system (nickname ++ LEFT)
  end.

(** Lines 57-65: the first read.  [Closed] stands for the [return]. *)
Definition read_nickname (client_socket : sock) (r : recv_outcome) : M phase :=
  data ← _recv_text r;
  let nickname := strip data in
  match nickname with
  | [] => close client_socket;; ret Closed
  | _ =>
    with_lock (modify (set_clients (set client_socket nickname)));;
    _broadcast_system (nickname ++ JOINED);;
    ret (Active nickname)
  end.

(** Lines 69-85: one turn of the message loop.  [Closed] stands for [break]. *)
Definition loop_body (nickname : pystr) (client_socket : sock)
    (r : recv_outcome) : M phase :=
  data ← _recv_text r;
  match data with
  | [] => ret Closed
  | _ =>
    let msg := strip data in
    if decide (msg = QUIT)
    then _send_text client_socket FAREWELL;; ret Closed
    else if startswith WHISPER_W msg || startswith WHISPER_KO msg
    then _handle_whisper nickname msg client_socket;; ret (Active nickname)
    else _broadcast_chat nickname msg;; ret (Active nickname)
  end.

(** [except (ConnectionResetError, ConnectionAbortedError): pass] *)
Definition caught (e : exn) : bool :=
  match e with
  | ConnectionResetError | ConnectionAbortedError => true
  | _ => false
  end.

(** One pass through the [try] statement.  When [body] leaves the block, by
    [return] or [break] or by an exception, the [finally] block runs; an
    exception the [except] clause does not catch is raised again after it. *)
Definition guarded (client_socket : sock) (nickname : pystr) (body : M phase)
  : M phase :=
  r ← try_except (ph ← body; ret (Ok ph)) (λ e, ret (Raise e));
  match r with
  | Ok Closed => finally_block client_socket nickname;; ret Closed
  | Ok ph => ret ph
  | Raise e =>
    finally_block client_socket nickname;;
    if caught e then ret Closed else raise e
  end.

(** [_handle_client], one read at a time: from the worker's phase and what its
    next read yields to its next phase.  A raised result is the worker thread
    ending on an uncaught exception. *)
Definition _handle_client_step (ph : phase) (client_socket : sock)
    (r : recv_outcome) : M phase :=
  match ph with
  | AwaitingNickname => guarded client_socket [] (read_nickname client_socket r)
  | Active nickname =>
    guarded client_socket nickname (loop_body nickname client_socket r)
  | Closed => ret Closed
  end.

Definition phase_of (o : outcome phase) : phase :=
  match res o with
  | Ok ph => ph
  | Raise _ => Closed
  end.

(** [_handle_client] on a socket whose successive reads yield [script]; when
    the script ends first the worker is left waiting in the phase returned. *)
Fixpoint _handle_client_from (ph : phase) (client_socket : sock)
    (script : list recv_outcome) (w : world) : phase * world * list event :=
  match script with
  | [] => (ph, w, [])
  | r :: rest =>
    match ph with
    | Closed => (Closed, w, [])
    | _ =>
      let o := _handle_client_step ph client_socket r w in
      let '(ph', w', tr) := _handle_client_from (phase_of o) client_socket rest (st o) in
      (ph', w', evs o ++ tr)
    end
  end.

Definition _handle_client (client_socket : sock) (script : list recv_outcome)
    (w : world) : phase * world * list event :=
  _handle_client_from AwaitingNickname client_socket script w.

End ChatServer.
Import ChatServer.

(** ** The server as a transition system

    [start] accepts connections and runs one worker per connection; workers
    interleave between reads.  A step is an accepted connection, one read of
    one worker handled to its end, or the loss of a peer. *)

Module Server.

Record system := System {
  srv : world;
  next_sock : sock;                 (* identity of the next accepted socket *)
  workers : gmap sock phase;        (* one worker per accepted socket *)
  log : list (sock * event)         (* events so far, with the worker's socket *)
}.

Inductive label :=
| LAccept
| LRecv (s : sock) (r : recv_outcome)
| LPeerFault (s : sock) (e : exn).

Definition init : system := System (World [] ∅ ∅) 0 ∅ [].

Definition step (σ : system) (l : label) : option system :=
  match l with
  | LAccept =>
    Some (System (srv σ) (S (next_sock σ))
            (<[next_sock σ := AwaitingNickname]> (workers σ)) (log σ))
  | LRecv s r =>
    match workers σ !! s with
    | None | Some Closed => None
    | Some ph =>
      let o := _handle_client_step ph s r (srv σ) in
      Some (System (st o) (next_sock σ) (<[s := phase_of o]> (workers σ))
              (log σ ++ (pair s <$> evs o)))
    end
  | LPeerFault s e =>
    match workers σ !! s with
    | None => None
    | Some _ =>
      Some (System
              (World (clients (srv σ)) (<[s := e]> (peer_fault (srv σ)))
                 (closed (srv σ)))
              (next_sock σ) (workers σ) (log σ))
    end
  end.

Fixpoint run (σ : system) (ls : list label) : option system :=
  match ls with
  | [] => Some σ
  | l :: rest =>
    match step σ l with
    | None => None
    | Some σ' => run σ' rest
    end
  end.

Definition reachable (σ : system) : Prop := ∃ ls, run init ls = Some σ.

End Server.
Import Server.

(** ** Observations on event lists *)

(** Payloads written to [s], in order. *)
Fixpoint received (s : sock) (tr : list event) : list pystr :=
  match tr with
  | [] => []
  | EvSent s' data :: r =>
    if decide (s' = s) then data :: received s r else received s r
  | _ :: r => received s r
  end.

(** All successful writes, in order. *)
Fixpoint deliveries (tr : list event) : list (sock * pystr) :=
  match tr with
  | [] => []
  | EvSent s data :: r => (s, data) :: deliveries r
  | _ :: r => deliveries r
  end.

(** The frame carrying [text] on the wire. *)
Definition frame (text : pystr) : pystr := text ++ [NEWLINE].

(** What a write of [text] to [s] leaves in the trace in world [w]. *)
Definition send_event (w : world) (text : pystr) (s : sock) : event :=
  match send_fault w s with
  | Some e => EvSendFailed s (frame text) e
  | None => EvSent s (frame text)
  end.

Definition writable (w : world) (s : sock) : Prop := send_fault w s = None.

#[global] Instance writable_dec w s : Decision (writable w s).
Proof. unfold writable. apply _. Defined.

(** The registry after popping every socket of [dead], in order. *)
Definition remove_all (dead : list sock) (d : dict) : dict :=
  foldl (λ d s, remove s d) d dead.


(** The sockets on which a broadcast in world [w] fails to write. *)
Definition dead_of (w : world) : list sock :=
  filter (λ s, ¬ writable w s) (keys (clients w)).


(** ** The texts the server sends *)

Definition chat_text (nickname msg : pystr) : pystr :=
  nickname ++ PROMPT ++ msg.
Definition system_text (message : pystr) : pystr := SERVER ++ message.
Definition joined_text (nickname : pystr) : pystr :=
  system_text (nickname ++ JOINED).
Definition left_text (nickname : pystr) : pystr :=
  system_text (nickname ++ LEFT).
Definition whisper_text (sender body : pystr) : pystr :=
  WHISPER ++ sender ++ PROMPT ++ body.
Definition whisper_sent_text (sender target body : pystr) : pystr :=
  WHISPER_SENT ++ sender ++ ARROW ++ target ++ PROMPT ++ body.

(** A line the message loop hands to [_handle_whisper]. *)
Definition is_whisper (msg : pystr) : bool :=
  startswith WHISPER_W msg || startswith WHISPER_KO msg.

(** A line the message loop broadcasts as chat. *)
Definition is_chat (msg : pystr) : Prop :=
  msg ≠ QUIT ∧ is_whisper msg = false.

(** The world once the [finally] block has popped and closed [s]. *)
Definition departed (s : sock) (w : world) : world :=
  World (remove s (clients w)) (peer_fault w) ({[s]} ∪ closed w).

(** The world once [s] is registered as [nickname]. *)
Definition registered (s : sock) (nickname : pystr) (w : world) : world :=
  set_clients (set s nickname) w.

(** [s.endswith(suffix)] *)
Definition endswith (suffix s : pystr) : bool :=
  startswith (reverse suffix) (reverse s).

(** A departure announcement: [_broadcast_system] entered with a message
    that ends in the departure text. *)
Definition is_departure (ev : event) : bool :=
  match ev with
  | EvSystem message => endswith LEFT message
  | _ => false
  end.

(** Departure announcements in a list of events. *)
Definition count_departures (tr : list event) : nat :=
  length (filter (λ ev, is_departure ev = true) tr).

(** Departure announcements made so far by the worker of [s]. *)
Definition departures (s : sock) (l : list (sock * event)) : nat :=
  length (filter (λ p, p.1 = s ∧ is_departure p.2 = true) l).

(** Sockets not yet accepted have no worker, and a worker has announced a
    departure only if it has ended, and then at most once. *)
Definition departures_bounded (σ : system) : Prop :=
  (∀ s, next_sock σ ≤ s → workers σ !! s = None) ∧
  (∀ s, departures s (log σ) ≤
          match workers σ !! s with Some Closed => 1 | _ => 0 end).

(** The registry holds each connection once, only connections whose worker
    is in its message loop, and no socket that is yet to be accepted has a
    worker. *)
Definition registry_sound (σ : system) : Prop :=
  (∀ s, next_sock σ ≤ s → workers σ !! s = None) ∧
  wf (clients (srv σ)) ∧
  (∀ s, s ∈ keys (clients (srv σ)) →
        ∃ nick, workers σ !! s = Some (Active nick)).

(** Whether every write of [tr] happens while [clients_lock] is free, given
    whether it is held at the start. *)
Fixpoint writes_unlocked (held : bool) (tr : list event) : bool :=
  match tr with
  | [] => true
  | EvAcquire :: r => writes_unlocked true r
  | EvRelease :: r => writes_unlocked false r
  | EvSent _ _ :: r | EvSendFailed _ _ _ :: r =>
    negb held && writes_unlocked held r
  | _ :: r => writes_unlocked held r
  end.

(** Whether every write of [tr] happens while [clients_lock] is held. *)
Fixpoint writes_locked (held : bool) (tr : list event) : bool :=
  match tr with
  | [] => true
  | EvAcquire :: r => writes_locked true r
  | EvRelease :: r => writes_locked false r
  | EvSent _ _ :: r | EvSendFailed _ _ _ :: r =>
    held && writes_locked held r
  | _ :: r => writes_locked held r
  end.

(** Three sessions A, B and C on sockets 0, 1 and 2, every peer present. *)
Definition three_sessions : world :=
  World [(0, lit "A"); (1, lit "B"); (2, lit "C")] ∅ ∅.

(** The server after one connection has been accepted. *)
Definition accepted_once : system :=
  System (World [] ∅ ∅) 1 (<[0 := AwaitingNickname]> ∅) [].

(** Sessions A and C with B's peer gone: writes to socket 1 fail. *)
Definition b_gone : world :=
  World [(0, lit "A"); (1, lit "B"); (2, lit "C")]
    {[1 := BrokenPipeError]} ∅.

(** A string of whitespace only. *)
Definition blank (s : pystr) : Prop := Forall (λ c, isspace c = true) s.

(** ** Shutdown *)

Module Lifecycle.

Definition SHUTDOWN : pystr :=
  Eval cbv in lit "서버> 서버가 종료됩니다. 연결을 닫습니다.".

(** The server object: the state the workers share and the listening socket. *)
Record server := Server {
  core : world;
  server_socket_open : bool
}.

(** The loop of [_shutdown]: each socket is sent the notice and closed, both
    under [try ... except Exception: pass]. *)
Fixpoint notify_each (socks : list sock) : M unit :=
  match socks with
  | [] => mret tt
  | s :: rest =>
    try_except (_send_text s SHUTDOWN) (λ _, mret tt);;
    try_except (close s) (λ _, mret tt);;
    notify_each rest
  end.

(** The [with self.clients_lock:] block of [_shutdown]. *)
Definition shutdown_clients : M unit :=
  with_lock (
    socks ← gets (λ w, keys (clients w));
    notify_each socks;;
    modify (set_clients (λ _, []))).

(** [_shutdown]: the block above, then the listening socket is closed. *)
Definition _shutdown (sv : server) : result unit * server * list event :=
  let o := shutdown_clients (core sv) in
  match res o with
  | Ok _ => (Ok tt, Server (st o) false, evs o)
  | Raise e => (Raise e, Server (st o) (server_socket_open sv), evs o)
  end.

(** [start], once [bind] and [listen] have succeeded: the accept loop and the
    workers it spawned take the steps [ls]; then the loop is left, by the
    interrupt or by an exception, and the [finally] clause runs [_shutdown]. *)
Definition start (ls : list label) : option (result unit * server * list event) :=
  match run init ls with
  | None => None
  | Some σ => Some (_shutdown (Server (srv σ) true))
  end.

End Lifecycle.
Import Lifecycle.

(** What [_shutdown] does to one socket, in the trace. *)
Definition notify_events (w : world) (s : sock) : list event :=
  [send_event w SHUTDOWN s; EvClose s].

(** Whether [clients_lock] is taken only when free and released only when
    held, given whether it is held at the start; the result says whether it
    is held at the end. *)
Fixpoint lock_walk (held : bool) (tr : list event) : option bool :=
  match tr with
  | [] => Some held
  | EvAcquire :: r => if held then None else lock_walk true r
  | EvRelease :: r => if held then lock_walk false r else None
  | _ :: r => lock_walk held r
  end.

(** [sep.join(parts)] for a one-character separator. *)
Fixpoint join (sep : N) (parts : list pystr) : pystr :=
  match parts with
  | [] => []
  | [p] => p
  | p :: rest => p ++ sep :: join sep rest
  end.

(** Occurrences of [c] in [s]: [s.count(c)]. *)
Definition count_char (c : N) (s : pystr) : nat :=
  length (filter (λ x, x = c) s).

(** A nickname as the registry holds it: not empty and without whitespace at
    either end. *)
Definition trimmed (s : pystr) : Prop := s ≠ [] ∧ strip s = s.

(** The registry has each connection once, holds no closed socket, and only
    trimmed nicknames. *)
Definition world_ok (w : world) : Prop :=
  wf (clients w) ∧
  (∀ k, k ∈ closed w → k ∉ keys (clients w)) ∧
  (∀ k v, get k (clients w) = Some v → trimmed v).

(** From [w] to [w'] entries were only removed from the registry and sockets
    only closed; what was closed is out of the registry and is the worker's
    own socket [s] or was registered. *)
Definition shrinks (s : sock) (w w' : world) : Prop :=
  peer_fault w' = peer_fault w ∧
  clients w' `sublist_of` clients w ∧
  (∀ k, k ∈ closed w' →
        k ∈ closed w ∨
        ((k ∉ keys (clients w')) ∧ (k = s ∨ k ∈ keys (clients w)))).

(** What every reachable state of the server satisfies. *)
Definition server_sound (σ : system) : Prop :=
  (∀ s, next_sock σ ≤ s → workers σ !! s = None) ∧
  world_ok (srv σ) ∧
  (∀ s v, get s (clients (srv σ)) = Some v →
          workers σ !! s = Some (Active v)) ∧
  (∀ s nick, workers σ !! s = Some (Active nick) → trimmed nick) ∧
  (∀ s, s ∈ closed (srv σ) →
        ∃ ph, workers σ !! s = Some ph ∧ ph ≠ AwaitingNickname).

(** The server after one connection was accepted and registered as [A]. *)
Definition one_session : system :=
  default init (run init [LAccept; LRecv 0 (RecvText (lit " A "))]).

(** A join announcement: [_broadcast_system] entered with a message that
    ends in the join text. *)
Definition is_join (ev : event) : bool :=
  match ev with
  | EvSystem message => endswith JOINED message
  | _ => false
  end.

(** Join announcements in a list of events. *)
Definition count_joins (tr : list event) : nat :=
  length (filter (λ ev, is_join ev = true) tr).

(** Join announcements made so far by the worker of [s]. *)
Definition joins (s : sock) (l : list (sock * event)) : nat :=
  length (filter (λ p, p.1 = s ∧ is_join p.2 = true) l).

(** Each worker has announced its join exactly when it has registered, and
    its departure exactly when it has registered and ended. *)
Definition announcements_paired (σ : system) : Prop :=
  ∀ s, match workers σ !! s with
       | Some (Active _) => joins s (log σ) = 1 ∧ departures s (log σ) = 0
       | Some Closed =>
         departures s (log σ) = joins s (log σ) ∧ joins s (log σ) ≤ 1
       | _ => joins s (log σ) = 0 ∧ departures s (log σ) = 0
       end.

(** An event list without announcements. *)
Definition quiet (tr : list event) : Prop :=
  Forall (λ ev, ∀ m, ev ≠ EvSystem m) tr.

(** The server after that one connection has taken its leave. *)
Definition session_over : system :=
  default init (run init [LAccept; LRecv 0 (RecvText (lit " A "));
                          LRecv 0 (RecvText QUIT)]).

(** * Properties *)

Example lit_ascii : lit "A> hi" = [65; 62; 32; 104; 105]%N.
Proof. reflexivity. Qed.

Example lit_hangul : lit "서버> " = [49436; 48260; 62; 32]%N.
Proof. reflexivity. Qed.

Example strip_line : strip (lit "  hello world
") = lit "hello world".
Proof. reflexivity. Qed.

Example split_whisper :
  split SPACE 2 (lit "/w B a b c") = [lit "/w"; lit "B"; lit "a b c"].
Proof. reflexivity. Qed.

Example split_two_spaces :
  split SPACE 2 (lit "/w  hi") = [lit "/w"; []; lit "hi"].
Proof. reflexivity. Qed.

(** ** Running the monad *)

Section Run.
Context {A B : Type}.

Lemma run_bind_ok (m : M A) (k : A → M B) w a w' tr :
  m w = Out (Ok a) w' tr → (m ≫= k) w = prepend tr (k a w').
Proof. intros H. unfold mbind, M_bind, bind. by rewrite H. Qed.

Lemma run_bind_raise (m : M A) (k : A → M B) w e w' tr :
  m w = Out (Raise e) w' tr → (m ≫= k) w = Out (Raise e) w' tr.
Proof. intros H. unfold mbind, M_bind, bind. by rewrite H. Qed.

Lemma prepend_out tr (r : result A) w tr' :
  prepend tr (Out r w tr') = Out r w (tr ++ tr').
Proof. reflexivity. Qed.

Lemma prepend_nil (o : outcome A) : prepend [] o = o.
Proof. by destruct o. Qed.

Lemma prepend_prepend tr tr' (o : outcome A) :
  prepend tr (prepend tr' o) = prepend (tr ++ tr') o.
Proof. unfold prepend. cbn. by rewrite app_assoc. Qed.
End Run.

(** Unfold the monad's plumbing. *)
Ltac msimpl :=
  repeat progress
    (unfold mbind, M_bind, bind, mret, M_ret, ret, raise, try_except, emit,
       gets, modify, with_lock, prepend, close, set_clients;
     cbn [res st evs app clients peer_fault closed]).

Lemma send_text_ok s text w :
  writable w s → _send_text s text w = Out (Ok tt) w [EvSent s (frame text)].
Proof. unfold writable, _send_text, sendall, frame. by intros ->. Qed.

Lemma send_text_raise s text w e :
  send_fault w s = Some e →
  _send_text s text w = Out (Raise e) w [EvSendFailed s (frame text) e].
Proof. unfold _send_text, sendall, frame. by intros ->. Qed.

Lemma send_text_run s text w :
  _send_text s text w =
    Out (match send_fault w s with Some e => Raise e | None => Ok tt end) w
      [send_event w text s].
Proof.
  unfold _send_text, sendall, send_event, frame.
  destruct (send_fault w s); reflexivity.
Qed.

Lemma try_send_run s text w :
  try_except (_send_text s text;; mret []) (λ _, mret [s]) w =
    Out (Ok (if decide (writable w s) then [] else [s])) w
      [send_event w text s].
Proof.
  unfold send_event. destruct (decide (writable w s)) as [Hw|Hw].
  - unfold try_except. erewrite run_bind_ok by (by apply send_text_ok).
    rewrite Hw. reflexivity.
  - destruct (send_fault w s) as [e|] eqn:E; [|done].
    unfold try_except. erewrite run_bind_raise by (by apply send_text_raise).
    reflexivity.
Qed.

Lemma send_each_run socks text w :
  send_each socks text w =
    Out (Ok (filter (λ s, ¬ writable w s) socks)) w
      (send_event w text <$> socks).
Proof.
  induction socks as [|s socks IH]; [reflexivity|].
  cbn [send_each]. erewrite run_bind_ok by apply try_send_run.
  erewrite run_bind_ok by apply IH. msimpl.
  rewrite filter_cons, app_nil_r.
  destruct (decide (writable w s)); [rewrite decide_False by tauto|rewrite decide_True by done]; reflexivity.
Qed.

Lemma sweep_run dead w :
  sweep dead w =
    Out (Ok tt)
      (World (remove_all dead (clients w)) (peer_fault w)
         (list_to_set dead ∪ closed w))
      (EvClose <$> dead).
Proof.
  revert w. induction dead as [|s dead IH]; intros w.
  - cbn. destruct w as [c f cl]. cbn. by rewrite (left_id_L ∅ (∪)).
  - cbn [sweep]. msimpl. rewrite IH. msimpl. cbn [list_to_set foldl remove_all].
    unfold remove_all. cbn [foldl].
    by rewrite (assoc_L (∪)), (comm_L (∪) _ {[s]}).
Qed.

Lemma broadcast_run text w :
  _broadcast text w =
    Out (Ok tt)
      (World (remove_all (dead_of w) (clients w)) (peer_fault w)
         (list_to_set (dead_of w) ∪ closed w))
      (EvAcquire :: (send_event w text <$> keys (clients w))
         ++ (EvClose <$> dead_of w) ++ [EvRelease]).
Proof.
  unfold _broadcast. msimpl. rewrite send_each_run. msimpl.
  rewrite sweep_run. msimpl. unfold dead_of. by rewrite <- app_assoc.
Qed.
(** *** Registry facts *)

Lemma get_None k (d : dict) : get k d = None ↔ k ∉ keys d.
Proof.
  induction d as [|[k' v] d IH]; cbn.
  - split; [intros _; apply not_elem_of_nil|done].
  - rewrite not_elem_of_cons. case_decide; [subst; split; [done|tauto]|].
    rewrite IH. tauto.
Qed.

Lemma get_Some_elem k v (d : dict) : get k d = Some v → (k, v) ∈ d.
Proof.
  induction d as [|[k' v'] d IH]; cbn; [done|].
  case_decide; [intros [= ->]; subst; left|right; auto].
Qed.

Lemma contains_true k (d : dict) : contains k d = true ↔ k ∈ keys d.
Proof.
  unfold contains. rewrite bool_decide_eq_true.
  destruct (get k d) eqn:E.
  - split; [|by eauto]. intros _. destruct (decide (k ∈ keys d)); [done|].
    apply get_None in n. congruence.
  - apply get_None in E. split; [by intros []|done].
Qed.

Lemma remove_notin k (d : dict) : k ∉ keys d → remove k d = d.
Proof.
  induction d as [|[k' v] d IH]; cbn; [done|].
  rewrite not_elem_of_cons. intros [? ?]. rewrite decide_False by done.
  by rewrite IH.
Qed.

Lemma remove_filter k (d : dict) :
  wf d → remove k d = filter (λ kv, kv.1 ≠ k) d.
Proof.
  unfold wf. induction d as [|[k' v] d IH]; cbn; [done|].
  rewrite NoDup_cons. intros [Hk Hd].
  destruct (decide (k = k')) as [->|E].
  - rewrite decide_False by tauto.
    rewrite <- (remove_notin k' d) at 1 by done. by apply IH.
  - rewrite decide_True by done. f_equal. by apply IH.
Qed.

Lemma keys_filter_sublist (P : sock * pystr → Prop) `{∀ x, Decision (P x)}
    (d : dict) :
  keys (filter P d) `sublist_of` keys d.
Proof. unfold keys. apply fmap_sublist, sublist_filter. Qed.

Lemma wf_filter (P : sock * pystr → Prop) `{∀ x, Decision (P x)} (d : dict) :
  wf d → wf (filter P d).
Proof. intros Hd. eapply sublist_NoDup; [exact Hd|apply keys_filter_sublist]. Qed.

Lemma wf_remove k (d : dict) : wf d → wf (remove k d).
Proof. intros Hd. rewrite remove_filter by done. by apply wf_filter. Qed.

Lemma remove_all_filter (l : list sock) (d : dict) :
  wf d → remove_all l d = filter (λ kv, kv.1 ∉ l) d.
Proof.
  unfold remove_all. revert d. induction l as [|s l IHl]; intros d Hd.
  - cbn [foldl]. induction d as [|kv d IHd]; [done|].
    rewrite filter_cons_True by apply not_elem_of_nil.
    f_equal. apply IHd. unfold wf, keys in *. rewrite fmap_cons in Hd.
    by apply NoDup_cons in Hd as [_ ?].
  - cbn [foldl]. rewrite IHl by (by apply wf_remove).
    rewrite remove_filter by done. rewrite list_filter_filter.
    apply list_filter_iff. intros [k v]. cbn. rewrite not_elem_of_cons. tauto.
Qed.

Lemma wf_remove_all (l : list sock) (d : dict) : wf d → wf (remove_all l d).
Proof. intros Hd. rewrite remove_all_filter by done. by apply wf_filter. Qed.

Lemma get_filter (P : sock → Prop) `{∀ x, Decision (P x)} k (d : dict) :
  get k (filter (λ kv, P kv.1) d) = if decide (P k) then get k d else None.
Proof.
  induction d as [|[k' v] d IH].
  - by destruct (decide (P k)).
  - rewrite filter_cons. cbn [fst get].
    destruct (decide (P k')) as [Hk'|Hk']; cbn [get]; rewrite ?IH;
      destruct (decide (k = k')) as [->|]; destruct (decide (P k')); done.
Qed.

Lemma get_set k k' v (d : dict) :
  get k (set k' v d) = if decide (k = k') then Some v else get k d.
Proof.
  induction d as [|[k0 v0] d IH]; cbn [set get].
  - done.
  - destruct (decide (k' = k0)) as [->|Hne]; cbn [get].
    + by destruct (decide (k = k0)).
    + rewrite IH. destruct (decide (k = k0)) as [->|];
        destruct (decide (k0 = k')); done.
Qed.

Lemma keys_set k v (d : dict) :
  keys (set k v d) = if decide (k ∈ keys d) then keys d else keys d ++ [k].
Proof.
  unfold keys. induction d as [|[k0 v0] d IH]; cbn [set].
  - rewrite decide_False by apply not_elem_of_nil. done.
  - rewrite fmap_cons. cbn [fst].
    destruct (decide (k = k0)) as [->|Hne].
    + rewrite decide_True by left. done.
    + rewrite fmap_cons, IH. cbn [fst].
      destruct (decide (k ∈ d.*1)).
      * rewrite decide_True by by right. done.
      * rewrite decide_False; [done|]. rewrite not_elem_of_cons. tauto.
Qed.

Lemma wf_set k v (d : dict) : wf d → wf (set k v d).
Proof.
  unfold wf. rewrite keys_set. case_decide; [done|].
  intros Hd. apply NoDup_app. split_and!; [done| |apply NoDup_singleton].
  intros x Hx ->%list_elem_of_singleton. done.
Qed.

(** *** Observation facts *)

Lemma received_app s tr1 tr2 :
  received s (tr1 ++ tr2) = received s tr1 ++ received s tr2.
Proof.
  induction tr1 as [|ev tr1 IH]; [done|].
  destruct ev; cbn [app received]; try done.
  case_decide; [by rewrite IH|done].
Qed.

Lemma deliveries_app tr1 tr2 :
  deliveries (tr1 ++ tr2) = deliveries tr1 ++ deliveries tr2.
Proof.
  induction tr1 as [|ev tr1 IH]; [done|].
  destruct ev; cbn [app deliveries]; try done. by rewrite IH.
Qed.

Lemma received_deliveries s tr :
  received s tr = (filter (λ p, p.1 = s) (deliveries tr)).*2.
Proof.
  induction tr as [|ev tr IH]; [done|].
  destruct ev; cbn [received deliveries]; try done.
  rewrite filter_cons. cbn [fst]. case_decide; [|done].
  by rewrite fmap_cons, IH.
Qed.

Lemma received_close s (l : list sock) : received s (EvClose <$> l) = [].
Proof. induction l; [done|]. by rewrite fmap_cons. Qed.

Lemma deliveries_close (l : list sock) : deliveries (EvClose <$> l) = [].
Proof. induction l; [done|]. by rewrite fmap_cons. Qed.

Lemma received_send_notin w text s (l : list sock) :
  s ∉ l → received s (send_event w text <$> l) = [].
Proof.
  induction l as [|s' l IH]; [done|].
  rewrite not_elem_of_cons, fmap_cons. intros [Hne Hl].
  unfold send_event at 1. destruct (send_fault w s'); cbn [received]; [auto|].
  rewrite decide_False by done. auto.
Qed.

Lemma received_send_unwritable w text s (l : list sock) :
  ¬ writable w s → received s (send_event w text <$> l) = [].
Proof.
  intros Hs. induction l as [|s' l IH]; [done|].
  rewrite fmap_cons. unfold send_event at 1.
  destruct (send_fault w s') eqn:E; cbn [received]; [auto|].
  case_decide; [subst; done|auto].
Qed.

Lemma received_send_once w text s (l : list sock) :
  NoDup l → s ∈ l → writable w s →
  received s (send_event w text <$> l) = [frame text].
Proof.
  intros Hl Hin Hs. induction Hl as [|s' l Hs' Hl IH]; [by apply elem_of_nil in Hin|].
  rewrite fmap_cons. unfold send_event at 1.
  apply elem_of_cons in Hin as [<-|Hin].
  - rewrite Hs. cbn [received]. rewrite decide_True by done.
    by rewrite received_send_notin.
  - destruct (send_fault w s'); cbn [received]; [auto|].
    rewrite decide_False by (intros ->; done). auto.
Qed.

Lemma filter_ext_in {X} (P Q : X → Prop) `{∀ x, Decision (P x)}
    `{∀ x, Decision (Q x)} (l : list X) :
  (∀ x, x ∈ l → P x ↔ Q x) → filter P l = filter Q l.
Proof.
  induction l as [|x l IH]; intros HPQ; [done|].
  rewrite !filter_cons.
  assert (P x ↔ Q x) by (apply HPQ; left).
  rewrite IH by (intros; apply HPQ; by right).
  destruct (decide (P x)), (decide (Q x)); tauto.
Qed.

(** What a broadcast writes to each socket. *)
Lemma received_broadcast text w s :
  wf (clients w) →
  received s (evs (_broadcast text w)) =
    if decide (s ∈ keys (clients w) ∧ writable w s) then [frame text] else [].
Proof.
  intros Hwf. rewrite broadcast_run. cbn [evs received].
  rewrite !received_app, received_close. cbn [received app].
  rewrite app_nil_r. case_decide as H.
  - destruct H. by apply received_send_once.
  - destruct (decide (writable w s)).
    + apply received_send_notin. tauto.
    + by apply received_send_unwritable.
Qed.

(** The registry a broadcast leaves behind. *)
Lemma clients_broadcast text w :
  wf (clients w) →
  clients (st (_broadcast text w)) =
    filter (λ kv, writable w kv.1) (clients w).
Proof.
  intros Hwf. rewrite broadcast_run. cbn [st clients].
  rewrite remove_all_filter by done. apply filter_ext_in.
  intros [k v] Hin. cbn [fst]. unfold dead_of. rewrite list_elem_of_filter.
  assert (k ∈ keys (clients w)) by (apply list_elem_of_fmap; by exists (k, v)).
  destruct (decide (writable w k)); tauto.
Qed.


(** ** Whisper *)

Lemma find_socket_run name w :
  _find_socket_by_name name w =
    Out (Ok (find_nick name (clients w))) w [EvAcquire; EvRelease].
Proof. reflexivity. Qed.


Lemma whisper_found_run sender target body s t w :
  find_nick target (clients w) = Some t →
  writable w t → writable w s →
  whisper sender target body s w =
    Out (Ok tt) w
      ([EvAcquire; EvRelease; EvSent t (frame (whisper_text sender body))]
         ++ if decide (t = s) then []
            else [EvSent s (frame (whisper_sent_text sender target body))]).
Proof.
  intros Hfind Ht Hs. unfold whisper.
  erewrite run_bind_ok by apply find_socket_run. rewrite Hfind.
  erewrite run_bind_ok by (by apply send_text_ok).
  destruct (decide (t = s)) as [->|Hne].
  - rewrite decide_False by tauto. reflexivity.
  - rewrite decide_True by done. by rewrite send_text_ok.
Qed.




Lemma handle_whisper_deliver sender raw cmd target body s w :
  split SPACE 2 raw = [cmd; target; body] →
  _handle_whisper sender raw s w = whisper sender target body s w.
Proof.
  intros Hparts. unfold _handle_whisper. rewrite Hparts.
  rewrite bool_decide_eq_false_2 by (cbn [length]; lia). reflexivity.
Qed.

(** C2. A whisper whose target nickname resolves to connection [t], when
    the write to [t] succeeds: [t] receives [(whisper) sender> body], once,
    and the registry is untouched.  When the write to the sender's own
    connection succeeds as well, the sender, unless [t] is its own
    connection, receives [(whisper sent) sender -> target> body]: two
    deliveries, or one when target and sender are the same connection, and
    nothing else is written. *)
Theorem whisper_delivers sender raw cmd target body s t w :
  split SPACE 2 raw = [cmd; target; body] →
  find_nick target (clients w) = Some t →
  writable w t →
  let o := _handle_whisper sender raw s w in
  st o = w ∧
  received t (evs o) = [frame (whisper_text sender body)] ∧
  (writable w s →
   res o = Ok tt ∧
   deliveries (evs o) =
     (t, frame (whisper_text sender body))
       :: (if decide (t = s) then []
           else [(s, frame (whisper_sent_text sender target body))]) ∧
   length (deliveries (evs o)) = (if decide (t = s) then 1 else 2)).
Proof.
  intros Hparts Hfind Ht o. subst o.
  rewrite (handle_whisper_deliver _ _ _ _ _ _ _ Hparts).
  assert (Hrun : whisper sender target body s w =
    prepend [EvAcquire; EvRelease; EvSent t (frame (whisper_text sender body))]
      (if decide (t = s) then Out (Ok tt) w []
       else _send_text s (whisper_sent_text sender target body) w)).
  { unfold whisper. erewrite run_bind_ok by apply find_socket_run.
    rewrite Hfind. erewrite run_bind_ok by (by apply send_text_ok).
    rewrite prepend_prepend. destruct (decide (t = s)) as [->|Hne].
    - by rewrite decide_False by tauto.
    - by rewrite decide_True by done. }
  split_and!.
  - rewrite Hrun. destruct (decide (t = s)); [done|].
    rewrite send_text_run. by destruct (send_fault w s).
  - rewrite Hrun. unfold prepend.
    destruct (decide (t = s)) as [->|Hne]; cbn [evs app received].
    + by rewrite decide_True by done.
    + rewrite decide_True by done. f_equal. rewrite send_text_run.
      unfold send_event. destruct (send_fault w s); cbn [evs received];
        [done|]. by rewrite decide_False by congruence.
  - intros Hs. rewrite (whisper_found_run _ _ _ _ _ _ Hfind Ht Hs).
    cbn [res st evs].
    split_and!; [done| |]; destruct (decide (t = s)); reflexivity.
Qed.

(** ** Strings *)

Lemma lstrip_split s :
  ∃ pre, s = pre ++ lstrip s ∧ blank pre.
Proof.
  induction s as [|c s (pre & Hs & Hpre)]; [exists []; split; [done|constructor]|].
  cbn [lstrip]. destruct (isspace c) eqn:Hc.
  - exists (c :: pre). split; [cbn [app]; f_equal; exact Hs|by constructor].
  - exists []. split; [done|constructor].
Qed.

Lemma rstrip_split s :
  ∃ post, s = rstrip s ++ post ∧ blank post.
Proof.
  induction s as [|c s (post & Hs & Hpost)]; [exists []; split; [done|constructor]|].
  cbn [rstrip]. destruct (rstrip s) as [|c' r] eqn:Hr.
  - cbn [app] in Hs. subst post. destruct (isspace c) eqn:Hc.
    + exists (c :: s). split; [done|by constructor].
    + exists s. split; [done|]. exact Hpost.
  - exists post. split; [|done]. cbn [app]. f_equal. exact Hs.
Qed.

(** [strip] removes a run of whitespace at each end and nothing else. *)
Lemma strip_split s :
  ∃ pre post, s = pre ++ strip s ++ post ∧ blank pre ∧ blank post.
Proof.
  destruct (lstrip_split s) as (pre & Hs & Hpre).
  destruct (rstrip_split (lstrip s)) as (post & Hl & Hpost).
  exists pre, post. unfold strip. by rewrite <- Hl.
Qed.

Lemma lstrip_head s c r : lstrip s = c :: r → isspace c = false.
Proof.
  induction s as [|c' s IH]; cbn [lstrip]; [done|].
  destruct (isspace c') eqn:Hc; [done|]. by intros [= -> ->].
Qed.

Lemma rstrip_last s c : last (rstrip s) = Some c → isspace c = false.
Proof.
  induction s as [|c' s IH]; cbn [rstrip]; [done|].
  destruct (rstrip s) as [|c'' r] eqn:Hr.
  - destruct (isspace c') eqn:Hc; cbn [last]; [done|]. by intros [= <-].
  - cbn [last]. apply IH.
Qed.

Lemma rstrip_head s c r :
  rstrip s = c :: r → ∃ r', s = c :: r'.
Proof.
  destruct s as [|c' s]; cbn [rstrip]; [done|].
  destruct (rstrip s); [destruct (isspace c')|]; intros [= -> <-]; eauto.
Qed.

(** The result of [strip] neither begins nor ends with whitespace. *)
Lemma strip_trimmed s :
  (∀ c r, strip s = c :: r → isspace c = false) ∧
  (∀ c, last (strip s) = Some c → isspace c = false).
Proof.
  unfold strip. split; [|apply rstrip_last].
  intros c r H. destruct (rstrip_head _ _ _ H) as [r' Hr'].
  by eapply lstrip_head.
Qed.

Lemma lstrip_blank s : blank s → lstrip s = [].
Proof. induction 1 as [|c s Hc _ IH]; [done|]. cbn [lstrip]. by rewrite Hc. Qed.

(** A line of whitespace only strips to the empty string. *)
Lemma strip_blank s : blank s → strip s = [].
Proof. intros H. unfold strip. by rewrite lstrip_blank. Qed.

Lemma strip_newline s : strip (s ++ [NEWLINE]) = strip s.
Proof.
  unfold strip.
  assert (Hr : ∀ t, rstrip (t ++ [NEWLINE]) = rstrip t).
  { induction t as [|c t IH]; [done|]. cbn [app rstrip]. by rewrite IH. }
  induction s as [|c s IH]; [done|].
  cbn [app lstrip]. destruct (isspace c); [done|].
  exact (Hr (c :: s)).
Qed.
(** ** The worker *)

Lemma broadcast_ok text w : res (_broadcast text w) = Ok tt.
Proof. by rewrite broadcast_run. Qed.

Lemma broadcast_system_run message w :
  _broadcast_system message w =
    Out (Ok tt) (st (_broadcast (system_text message) w))
      (EvSystem message :: evs (_broadcast (system_text message) w)).
Proof.
  unfold _broadcast_system, system_text.
  erewrite run_bind_ok by reflexivity. by rewrite broadcast_run.
Qed.

Lemma broadcast_system_ok message w : res (_broadcast_system message w) = Ok tt.
Proof. by rewrite broadcast_system_run. Qed.

(** The world after the worker of [s] has popped and closed its socket. *)
Lemma finally_block_run s nickname w :
  finally_block s nickname w =
    prepend [EvAcquire; EvRelease; EvClose s]
      (match default nickname (get s (clients w)) with
       | [] => mret tt
       | nick => _broadcast_system (nick ++ LEFT)
       end (departed s w)).
Proof.
  unfold finally_block, departed.
  destruct (contains s (clients w)) eqn:Hc.
  - pose proof Hc as Hin. apply contains_true in Hin.
    destruct (get s (clients w)) as [nick|] eqn:Hg;
      [|apply get_None in Hg; done].
    msimpl. rewrite Hc. unfold pop_client, pop. rewrite Hg. msimpl. cbn [default].
    destruct nick; reflexivity.
  - assert (Hn : s ∉ keys (clients w)).
    { intros Hin. apply contains_true in Hin. congruence. }
    msimpl. rewrite Hc. msimpl. rewrite remove_notin by done.
    apply get_None in Hn. rewrite Hn. cbn [default].
    destruct nickname; reflexivity.
Qed.

Lemma finally_block_ok s nickname w : res (finally_block s nickname w) = Ok tt.
Proof.
  rewrite finally_block_run. unfold prepend. cbn [res].
  destruct (default nickname (get s (clients w))); [done|].
  apply broadcast_system_ok.
Qed.

Lemma guarded_stay s nickname body w ph w' tr :
  body w = Out (Ok ph) w' tr → ph ≠ Closed →
  guarded s nickname body w = Out (Ok ph) w' tr.
Proof.
  intros Hb Hph. unfold guarded. msimpl. rewrite Hb. msimpl.
  destruct ph; [|by rewrite !app_nil_r|done]; by rewrite !app_nil_r.
Qed.

Lemma guarded_leave s nickname body w w' tr :
  body w = Out (Ok Closed) w' tr →
  guarded s nickname body w =
    Out (Ok Closed) (st (finally_block s nickname w'))
      (tr ++ evs (finally_block s nickname w')).
Proof.
  intros Hb. unfold guarded. msimpl. rewrite Hb. msimpl.
  pose proof (finally_block_ok s nickname w') as Hf.
  destruct (finally_block s nickname w') as [r w'' tr'']. cbn [res] in Hf.
  subst r. msimpl. by rewrite !app_nil_r.
Qed.

Lemma guarded_raise s nickname body w e w' tr :
  body w = Out (Raise e) w' tr →
  guarded s nickname body w =
    Out (if caught e then Ok Closed else Raise e)
      (st (finally_block s nickname w'))
      (tr ++ evs (finally_block s nickname w')).
Proof.
  intros Hb. unfold guarded. msimpl. rewrite Hb. msimpl.
  pose proof (finally_block_ok s nickname w') as Hf.
  destruct (finally_block s nickname w') as [r w'' tr'']. cbn [res] in Hf.
  subst r. msimpl. destruct (caught e); msimpl; by rewrite !app_nil_r.
Qed.
Lemma is_whisper_not_quit msg : is_whisper msg = true → msg ≠ QUIT.
Proof. intros H ->. vm_compute in H. done. Qed.

Lemma loop_body_chat nick s data w :
  data ≠ [] → is_chat (strip data) →
  loop_body nick s (RecvText data) w =
    Out (Ok (Active nick)) (st (_broadcast (chat_text nick (strip data)) w))
      (evs (_broadcast (chat_text nick (strip data)) w)).
Proof.
  intros Hdata [Hq Hw]. unfold loop_body, _recv_text.
  erewrite run_bind_ok by reflexivity.
  destruct data as [|c data]; [done|].
  rewrite decide_False by done. unfold is_whisper in Hw. rewrite Hw.
  unfold _broadcast_chat, chat_text.
  erewrite run_bind_ok by apply broadcast_run. rewrite broadcast_run.
  msimpl. by rewrite !app_nil_r.
Qed.

Lemma loop_body_whisper nick s data w :
  data ≠ [] → is_whisper (strip data) = true →
  loop_body nick s (RecvText data) w =
    (_handle_whisper nick (strip data) s;; mret (Active nick)) w.
Proof.
  intros Hdata Hw. unfold loop_body, _recv_text.
  erewrite run_bind_ok by reflexivity.
  destruct data as [|c data]; [done|].
  rewrite decide_False by (by apply is_whisper_not_quit).
  unfold is_whisper in Hw. rewrite Hw. apply prepend_nil.
Qed.

Lemma step_chat nick s data w :
  data ≠ [] → is_chat (strip data) →
  _handle_client_step (Active nick) s (RecvText data) w =
    Out (Ok (Active nick)) (st (_broadcast (chat_text nick (strip data)) w))
      (evs (_broadcast (chat_text nick (strip data)) w)).
Proof.
  intros Hdata Hchat. cbn [_handle_client_step].
  apply guarded_stay; [by apply loop_body_chat|done].
Qed.

(** A turn of the message loop depends on the line only through its trimmed
    form. *)
Lemma loop_body_strip nick s data data' w :
  data ≠ [] → data' ≠ [] → strip data' = strip data →
  loop_body nick s (RecvText data') w = loop_body nick s (RecvText data) w.
Proof.
  intros Hd Hd' Hs. unfold loop_body, _recv_text.
  erewrite !run_bind_ok by reflexivity.
  destruct data as [|c data]; [done|]. destruct data' as [|c' data']; [done|].
  by rewrite Hs.
Qed.

(** C9. A received line is trimmed before it is classified and delivered.
    [strip] removes whitespace at both ends only (the newline terminator is
    whitespace) and leaves none there; a chat line is broadcast as
    [nickname> trimmed line]; a line of whitespace only, which is not empty
    and so does not end the session, is broadcast as chat with an empty
    body.  In both cases the worker stays in the message loop.  What the
    worker does with a line depends on the line only through its trimmed
    form. *)
Theorem inbound_frame_trimmed nick s data w :
  data ≠ [] →
  let msg := strip data in
  let o := _handle_client_step (Active nick) s (RecvText data) w in
  (∃ pre post, data = pre ++ msg ++ post ∧ blank pre ∧ blank post) ∧
  (∀ c r, msg = c :: r → isspace c = false) ∧
  (∀ c, last msg = Some c → isspace c = false) ∧
  strip (data ++ [NEWLINE]) = msg ∧
  (is_chat msg →
   let b := _broadcast (nick ++ PROMPT ++ msg) w in
   o = Out (Ok (Active nick)) (st b) (evs b)) ∧
  (blank data →
   let b := _broadcast (nick ++ PROMPT) w in
   o = Out (Ok (Active nick)) (st b) (evs b)) ∧
  (∀ data', data' ≠ [] → strip data' = msg →
   _handle_client_step (Active nick) s (RecvText data') w = o).
Proof.
  intros Hdata msg o. subst msg o.
  split_and!; [| | | | | |intros data' Hd' Hs; cbn [_handle_client_step];
    unfold guarded; msimpl; by rewrite (loop_body_strip nick s data data')].
  - apply strip_split.
  - apply strip_trimmed.
  - apply strip_trimmed.
  - apply strip_newline.
  - intros Hchat. by apply step_chat.
  - intros Hblank. rewrite step_chat; [|done|].
    + unfold chat_text. rewrite strip_blank by done. by rewrite app_nil_r.
    + rewrite strip_blank by done. split; [done|reflexivity].
Qed.

(** ** Chat fan-out *)

(** C1 (as the code has it). When the worker of a registered session reads a
    chat line, every registered connection that can be written to receives
    exactly one frame [nickname> line]; the sender's own connection is among
    them, so the sender gets its line echoed back.  Connections outside the
    registry receive nothing. *)
Theorem chat_fanout_with_echo nick s data w :
  wf (clients w) →
  get s (clients w) = Some nick →
  data ≠ [] → is_chat (strip data) →
  let o := _handle_client_step (Active nick) s (RecvText data) w in
  let line := frame (chat_text nick (strip data)) in
  (∀ r, r ∈ keys (clients w) → writable w r → received r (evs o) = [line]) ∧
  (writable w s → received s (evs o) = [line]) ∧
  (∀ r, r ∉ keys (clients w) → received r (evs o) = []).
Proof.
  intros Hwf Hs Hdata Hchat o line. subst o line.
  rewrite step_chat by done. cbn [evs].
  assert (Hin : s ∈ keys (clients w)).
  { destruct (decide (s ∈ keys (clients w))) as [|Hn]; [done|].
    apply get_None in Hn. congruence. }
  split_and!.
  - intros r Hr Hwr. rewrite received_broadcast by done.
    by rewrite decide_True.
  - intros Hws. rewrite received_broadcast by done. by rewrite decide_True.
  - intros r Hr. rewrite received_broadcast by done.
    rewrite decide_False; [done|tauto].
Qed.

(** ** Registration *)

(** The world once [s] is registered as [nickname]. *)
Lemma read_nickname_join s data w :
  strip data ≠ [] →
  read_nickname s (RecvText data) w =
    prepend [EvAcquire; EvRelease; EvSystem (strip data ++ JOINED)]
      (Out (Ok (Active (strip data)))
         (st (_broadcast (joined_text (strip data)) (registered s (strip data) w)))
         (evs (_broadcast (joined_text (strip data)) (registered s (strip data) w)))).
Proof.
  intros Hn. unfold read_nickname, _recv_text.
  erewrite run_bind_ok by reflexivity.
  destruct (strip data) as [|c nick] eqn:Hnick; [done|].
  erewrite run_bind_ok by reflexivity.
  erewrite run_bind_ok by apply broadcast_system_run.
  unfold joined_text, registered. msimpl.
  by rewrite !app_nil_r.
Qed.

Lemma read_nickname_empty s data w :
  strip data = [] →
  read_nickname s (RecvText data) w =
    Out (Ok Closed) (World (clients w) (peer_fault w) ({[s]} ∪ closed w))
      [EvClose s].
Proof.
  intros Hn. unfold read_nickname, _recv_text.
  erewrite run_bind_ok by reflexivity. rewrite Hn. reflexivity.
Qed.

(** C10. A first line that is not empty after trimming registers the
    connection under the trimmed nickname before the join announcement is
    broadcast: the broadcast runs on the registry that already holds the new
    connection, so the joining connection receives its own join notice, as
    does every connection registered before. *)
Theorem join_announced_to_self s data w :
  wf (clients w) →
  strip data ≠ [] →
  let nick := strip data in
  let o := _handle_client_step AwaitingNickname s (RecvText data) w in
  let w1 := registered s nick w in
  res o = Ok (Active nick) ∧
  get s (clients w1) = Some nick ∧
  evs o = [EvAcquire; EvRelease; EvSystem (nick ++ JOINED)]
            ++ evs (_broadcast (joined_text nick) w1) ∧
  (writable w s → received s (evs o) = [frame (joined_text nick)]) ∧
  (∀ r, r ∈ keys (clients w) → writable w r →
        received r (evs o) = [frame (joined_text nick)]).
Proof.
  intros Hwf Hn nick o w1. subst nick o w1. cbn [_handle_client_step].
  erewrite guarded_stay; [|by apply read_nickname_join|done].
  cbn [res evs].
  assert (Hwf1 : wf (clients (registered s (strip data) w)))
    by (by apply wf_set).
  assert (Hkeys : ∀ r, r ∈ keys (clients w) ∨ r = s →
            r ∈ keys (clients (registered s (strip data) w))).
  { intros r Hr. cbn [registered set_clients clients]. rewrite keys_set.
    case_decide; [destruct Hr as [?| ->]; done|].
    apply elem_of_app. rewrite list_elem_of_singleton. tauto. }
  split_and!.
  - done.
  - cbn [registered set_clients clients]. rewrite get_set. by rewrite decide_True.
  - done.
  - intros Hs. rewrite received_app. cbn [received app].
    rewrite received_broadcast by done. rewrite decide_True; [done|].
    split; [apply Hkeys; by right|done].
  - intros r Hr Hwr. rewrite received_app. cbn [received app].
    rewrite received_broadcast by done. rewrite decide_True; [done|].
    split; [apply Hkeys; by left|done].
Qed.

(** An empty first line on a socket that is not in the registry closes the
    socket and does nothing else. *)
Lemma step_empty_nickname s data w :
  strip data = [] → s ∉ keys (clients w) →
  _handle_client_step AwaitingNickname s (RecvText data) w =
    Out (Ok Closed) (World (clients w) (peer_fault w) ({[s]} ∪ closed w))
      [EvClose s; EvAcquire; EvRelease; EvClose s].
Proof.
  intros Hn Hs. cbn [_handle_client_step].
  erewrite guarded_leave by (by apply read_nickname_empty).
  rewrite finally_block_run. cbn [clients].
  apply get_None in Hs as Hg. rewrite Hg. cbn [default]. msimpl.
  unfold departed. cbn [clients peer_fault closed].
  rewrite remove_notin by done.
  by rewrite (assoc_L (∪)), (idemp_L (∪)).
Qed.
(** ** Departure announcements *)

Lemma count_departures_app tr1 tr2 :
  count_departures (tr1 ++ tr2) = count_departures tr1 + count_departures tr2.
Proof. unfold count_departures. by rewrite filter_app, length_app. Qed.

Lemma count_departures_cons ev tr :
  count_departures (ev :: tr) =
    (if is_departure ev then 1 else 0) + count_departures tr.
Proof.
  unfold count_departures. rewrite filter_cons.
  destruct (is_departure ev); [by rewrite decide_True|by rewrite decide_False].
Qed.

Lemma count_departures_send w text (l : list sock) :
  count_departures (send_event w text <$> l) = 0.
Proof.
  induction l as [|s l IH]; [done|].
  rewrite fmap_cons, count_departures_cons, IH.
  unfold send_event. by destruct (send_fault w s).
Qed.

Lemma count_departures_close (l : list sock) :
  count_departures (EvClose <$> l) = 0.
Proof.
  induction l as [|s l IH]; [done|].
  by rewrite fmap_cons, count_departures_cons, IH.
Qed.

(** A broadcast announces nothing of its own. *)
Lemma count_departures_broadcast text w :
  count_departures (evs (_broadcast text w)) = 0.
Proof.
  rewrite broadcast_run. cbn [evs].
  rewrite count_departures_cons, !count_departures_app,
    count_departures_send, count_departures_close.
  reflexivity.
Qed.

Lemma count_departures_send_text s text w :
  count_departures (evs (_send_text s text w)) = 0.
Proof. rewrite send_text_run. unfold send_event. by destruct (send_fault w s). Qed.

Lemma evs_bind {A B} (m : M A) (k : A → M B) w :
  evs ((m ≫= k) w) =
    evs (m w) ++ match res (m w) with
                 | Ok a => evs (k a (st (m w)))
                 | Raise _ => []
                 end.
Proof.
  unfold mbind, M_bind, bind. destruct (m w) as [[a|e] w' tr]; cbn [evs res st prepend].
  - done.
  - by rewrite app_nil_r.
Qed.

Lemma st_send_text s text w : st (_send_text s text w) = w.
Proof. by rewrite send_text_run. Qed.

Lemma count_departures_whisper sender target body s w :
  count_departures (evs (whisper sender target body s w)) = 0.
Proof.
  unfold whisper. rewrite evs_bind, find_socket_run. cbn [res st evs].
  rewrite count_departures_app. cbn [plus].
  destruct (find_nick target (clients w)) as [t|].
  - rewrite evs_bind, count_departures_app, count_departures_send_text.
    destruct (res (_send_text t _ w)); [|done]. rewrite st_send_text.
    case_decide; [apply count_departures_send_text|done].
  - apply count_departures_send_text.
Qed.

Lemma count_departures_handle_whisper sender raw s w :
  count_departures (evs (_handle_whisper sender raw s w)) = 0.
Proof.
  unfold _handle_whisper. case_bool_decide.
  - apply count_departures_send_text.
  - destruct (split SPACE 2 raw) as [|a [|b [|c [|d l]]]]; try done.
    apply count_departures_whisper.
Qed.

Lemma endswith_left_joined nick : endswith LEFT (nick ++ JOINED) = false.
Proof. unfold endswith. rewrite reverse_app. reflexivity. Qed.

Lemma endswith_left_left nick : endswith LEFT (nick ++ LEFT) = true.
Proof. unfold endswith. rewrite reverse_app. reflexivity. Qed.

Lemma count_departures_read_nickname s r w :
  count_departures (evs (read_nickname s r w)) = 0.
Proof.
  destruct r as [data|e]; [|done].
  destruct (strip data) as [|c nick] eqn:Hn.
  - by rewrite read_nickname_empty.
  - rewrite read_nickname_join by (rewrite Hn; done).
    unfold prepend. cbn [evs]. rewrite count_departures_app.
    rewrite count_departures_broadcast.
    rewrite !count_departures_cons. cbn [is_departure].
    by rewrite endswith_left_joined.
Qed.

Lemma count_departures_loop_body nick s r w :
  count_departures (evs (loop_body nick s r w)) = 0.
Proof.
  destruct r as [data|e]; [|done].
  unfold loop_body, _recv_text. rewrite evs_bind. cbn [mret M_ret ret res st evs app].
  destruct data as [|c data]; [done|].
  case_decide.
  - rewrite evs_bind, count_departures_app, count_departures_send_text.
    by destruct (res _).
  - destruct (_ || _).
    + rewrite evs_bind, count_departures_app, count_departures_handle_whisper.
      by destruct (res _).
    + rewrite evs_bind, count_departures_app.
      unfold _broadcast_chat. rewrite count_departures_broadcast.
      by destruct (res _).
Qed.

(** The [finally] block announces at most one departure. *)
Lemma count_departures_finally s nickname w :
  count_departures (evs (finally_block s nickname w)) ≤ 1.
Proof.
  rewrite finally_block_run. unfold prepend. cbn [evs].
  rewrite count_departures_app.
  assert (count_departures [EvAcquire; EvRelease; EvClose s] = 0) as ->
    by reflexivity.
  destruct (default nickname (get s (clients w))) as [|c n]; [cbn; lia|].
  rewrite broadcast_system_run. cbn [evs].
  rewrite count_departures_cons, count_departures_broadcast.
  destruct (is_departure _); lia.
Qed.

(** What one pass through the [try] statement does, by how its body ends. *)
Lemma guarded_cases s nickname body w :
  let o := guarded s nickname body w in
  (∃ ph, ph ≠ Closed ∧ res o = Ok ph ∧ st o = st (body w) ∧ evs o = evs (body w)) ∨
  (phase_of o = Closed ∧
   st o = st (finally_block s nickname (st (body w))) ∧
   evs o = evs (body w) ++ evs (finally_block s nickname (st (body w)))).
Proof.
  cbn zeta. destruct (body w) as [[ph|e] w' tr] eqn:Hb; cbn [st evs].
  - assert (ph = Closed ∨ ph ≠ Closed) as [->|Hph]
      by (destruct ph; [right|right|left]; done).
    + right. by rewrite (guarded_leave _ _ _ _ _ _ Hb).
    + left. exists ph. by rewrite (guarded_stay _ _ _ _ _ _ _ Hb Hph).
  - right. rewrite (guarded_raise _ _ _ _ _ _ _ Hb). unfold phase_of.
    cbn [res st evs]. by destruct (caught e).
Qed.

(** One step of a worker announces at most one departure, and none unless
    the worker ends. *)
Lemma step_departures ph s r w :
  let o := _handle_client_step ph s r w in
  count_departures (evs o) ≤ 1 ∧
  (phase_of o ≠ Closed → count_departures (evs o) = 0).
Proof.
  cbn zeta. destruct ph as [|nick|]; cbn [_handle_client_step].
  - destruct (guarded_cases s [] (read_nickname s r) w)
      as [(ph & Hph & Hr & _ & He)|(Hph & _ & He)]; rewrite He.
    + rewrite count_departures_read_nickname. split; [lia|done].
    + rewrite count_departures_app, count_departures_read_nickname.
      split; [apply count_departures_finally|done].
  - destruct (guarded_cases s nick (loop_body nick s r) w)
      as [(ph & Hph & Hr & _ & He)|(Hph & _ & He)]; rewrite He.
    + rewrite count_departures_loop_body. split; [lia|done].
    + rewrite count_departures_app, count_departures_loop_body.
      split; [apply count_departures_finally|done].
  - split; [cbn; lia|done].
Qed.
Lemma departures_app s l1 l2 :
  departures s (l1 ++ l2) = departures s l1 + departures s l2.
Proof. unfold departures. by rewrite filter_app, length_app. Qed.

Lemma departures_tagged s t tr :
  departures s (pair t <$> tr) =
    if decide (s = t) then count_departures tr else 0.
Proof.
  unfold departures, count_departures.
  induction tr as [|ev tr IH]; [by case_decide|].
  rewrite fmap_cons, !filter_cons. cbn [fst snd].
  destruct (decide (s = t)) as [->|Hne].
  - destruct (is_departure ev).
    + rewrite !decide_True by done. cbn [length]. by rewrite IH.
    + rewrite !decide_False by (try intros [_ ?]; done). done.
  - rewrite decide_False by (intros [? _]; done). done.
Qed.

Lemma departures_bounded_init : departures_bounded init.
Proof. split; [done|]. intros s. cbn. lia. Qed.

Lemma departures_bounded_step σ l σ' :
  departures_bounded σ → step σ l = Some σ' → departures_bounded σ'.
Proof.
  intros [Hfresh Hbound] Hstep. destruct l as [|s r|s e]; cbn [step] in Hstep.
  - injection Hstep as <-. split; cbn [next_sock workers log].
    + intros s Hs. rewrite lookup_insert_ne by lia. apply Hfresh. lia.
    + intros s. destruct (decide (s = next_sock σ)) as [->|Hne].
      * rewrite lookup_insert_eq. specialize (Hbound (next_sock σ)).
        rewrite Hfresh in Hbound by lia. done.
      * rewrite lookup_insert_ne by done. apply Hbound.
  - destruct (workers σ !! s) as [ph|] eqn:Hph; [|done].
    assert (Hnc : ph ≠ Closed) by (intros ->; done).
    assert (Hsome : Some σ' =
      Some (System (st (_handle_client_step ph s r (srv σ))) (next_sock σ)
              (<[s := phase_of (_handle_client_step ph s r (srv σ))]> (workers σ))
              (log σ ++ (pair s <$> evs (_handle_client_step ph s r (srv σ))))))
      by (rewrite <- Hstep; by destruct ph).
    injection Hsome as ->. clear Hstep.
    destruct (step_departures ph s r (srv σ)) as [Hle Hzero].
    split; cbn [next_sock workers log].
    + intros s' Hs'. destruct (decide (s' = s)) as [->|Hne].
      * rewrite Hfresh in Hph by done. done.
      * rewrite lookup_insert_ne by done. by apply Hfresh.
    + intros s'. rewrite departures_app, departures_tagged.
      destruct (decide (s' = s)) as [->|Hne].
      * rewrite lookup_insert_eq. specialize (Hbound s). rewrite Hph in Hbound.
        assert (departures s (log σ) = 0) as -> by (destruct ph; [lia|lia|done]).
        destruct (phase_of _) eqn:Hp; [rewrite Hzero by done; lia
                                       |rewrite Hzero by done; lia|lia].
      * rewrite lookup_insert_ne by done. specialize (Hbound s'). lia.
  - destruct (workers σ !! s); [|done]. injection Hstep as <-.
    split; [apply Hfresh|apply Hbound].
Qed.

Lemma run_invariant (P : system → Prop) :
  (∀ σ l σ', P σ → step σ l = Some σ' → P σ') →
  ∀ ls σ σ', P σ → run σ ls = Some σ' → P σ'.
Proof.
  intros Hstep. induction ls as [|l ls IH]; intros σ σ' HP Hrun; cbn [run] in Hrun.
  - by injection Hrun as <-.
  - destruct (step σ l) as [σ1|] eqn:H1; [|done]. eauto.
Qed.

Lemma reachable_departures_bounded σ : reachable σ → departures_bounded σ.
Proof.
  intros [ls Hrun].
  eapply (run_invariant departures_bounded);
    [apply departures_bounded_step|apply departures_bounded_init|exact Hrun].
Qed.

(** In every reachable state each worker has announced at most one
    departure. *)
Lemma departure_at_most_once σ s :
  reachable σ → departures s (log σ) ≤ 1.
Proof.
  intros Hr. destruct (reachable_departures_bounded σ Hr) as [_ Hb].
  specialize (Hb s). destruct (workers σ !! s) as [[]|]; lia.
Qed.
(** ** Removal *)

Lemma keys_filter_elem (P : sock * pystr → Prop) `{∀ x, Decision (P x)}
    k (d : dict) :
  k ∈ keys (filter P d) → k ∈ keys d.
Proof.
  unfold keys. rewrite !list_elem_of_fmap.
  intros ([k' v] & -> & Hin). apply list_elem_of_filter in Hin as [_ Hin].
  by exists (k', v).
Qed.

Lemma not_in_remove k (d : dict) : wf d → k ∉ keys (remove k d).
Proof.
  intros Hwf. rewrite remove_filter by done. unfold keys.
  rewrite list_elem_of_fmap. intros ([k' v] & -> & Hin).
  apply list_elem_of_filter in Hin as [Hne _]. done.
Qed.

Lemma get_remove k (d : dict) : wf d → get k (remove k d) = None.
Proof. intros Hwf. apply get_None. by apply not_in_remove. Qed.

Lemma keys_broadcast text w k :
  wf (clients w) →
  k ∈ keys (clients (st (_broadcast text w))) ↔
  k ∈ keys (clients w) ∧ writable w k.
Proof.
  intros Hwf. rewrite clients_broadcast by done. unfold keys.
  rewrite !list_elem_of_fmap. split.
  - intros ([k' v] & -> & Hin). apply list_elem_of_filter in Hin as [Hw Hin].
    split; [by exists (k', v)|done].
  - intros [([k' v] & -> & Hin) Hw]. exists (k', v). split; [done|].
    by apply list_elem_of_filter.
Qed.

Lemma wf_broadcast text w :
  wf (clients w) → wf (clients (st (_broadcast text w))).
Proof. intros Hwf. rewrite clients_broadcast by done. by apply wf_filter. Qed.

(** The registry once the [finally] block has run. *)
Lemma clients_finally s nickname w :
  wf (clients w) →
  wf (clients (st (finally_block s nickname w))) ∧
  (s ∉ keys (clients (st (finally_block s nickname w)))) ∧
  (∀ k, k ∈ keys (clients (st (finally_block s nickname w))) →
        k ∈ keys (clients w)).
Proof.
  intros Hwf. rewrite finally_block_run. unfold prepend. cbn [st].
  assert (Hd : wf (clients (departed s w))) by (by apply wf_remove).
  assert (Hs : s ∉ keys (clients (departed s w))) by (by apply not_in_remove).
  assert (Hsub : ∀ k, k ∈ keys (clients (departed s w)) → k ∈ keys (clients w)).
  { intros k. cbn [departed clients]. rewrite remove_filter by done.
    apply keys_filter_elem. }
  destruct (default nickname (get s (clients w))) as [|c n]; [done|].
  rewrite broadcast_system_run. cbn [st]. split_and!.
  - by apply wf_broadcast.
  - rewrite keys_broadcast by done. tauto.
  - intros k. rewrite keys_broadcast by done. intros [? _]. auto.
Qed.

Lemma count_departures_finally_announced s nickname w :
  default nickname (get s (clients w)) ≠ [] →
  count_departures (evs (finally_block s nickname w)) = 1 ∧
  EvSystem (default nickname (get s (clients w)) ++ LEFT)
    ∈ evs (finally_block s nickname w).
Proof.
  intros Hn. rewrite finally_block_run. unfold prepend. cbn [evs].
  destruct (default nickname (get s (clients w))) as [|c n]; [done|].
  rewrite broadcast_system_run. cbn [evs]. split.
  - rewrite count_departures_app.
    assert (count_departures [EvAcquire; EvRelease; EvClose s] = 0) as ->
      by reflexivity.
    rewrite count_departures_cons, count_departures_broadcast.
    cbn [is_departure]. by rewrite endswith_left_left.
  - apply elem_of_app. right. left.
Qed.

Lemma st_bind {A B} (m : M A) (k : A → M B) w :
  st ((m ≫= k) w) =
    match res (m w) with
    | Ok a => st (k a (st (m w)))
    | Raise _ => st (m w)
    end.
Proof. unfold mbind, M_bind, bind. by destruct (m w) as [[a|e] w' tr]. Qed.

Lemma res_bind {A B} (m : M A) (k : A → M B) w :
  res ((m ≫= k) w) =
    match res (m w) with
    | Ok a => res (k a (st (m w)))
    | Raise e => Raise e
    end.
Proof. unfold mbind, M_bind, bind. by destruct (m w) as [[a|e] w' tr]. Qed.

Lemma st_whisper sender target body s w :
  st (whisper sender target body s w) = w.
Proof.
  unfold whisper. rewrite st_bind, find_socket_run. cbn [res st].
  destruct (find_nick target (clients w)) as [t|]; [|apply st_send_text].
  rewrite st_bind, st_send_text. destruct (res _); [|done].
  case_decide; [apply st_send_text|done].
Qed.

Lemma st_handle_whisper sender raw s w :
  st (_handle_whisper sender raw s w) = w.
Proof.
  unfold _handle_whisper. case_bool_decide; [apply st_send_text|].
  destruct (split SPACE 2 raw) as [|a [|b [|c [|d l]]]]; try done.
  apply st_whisper.
Qed.

(** A turn of the message loop leaves the world as it was, unless it is a
    chat broadcast, after which the worker stays in the loop. *)
Lemma loop_body_st nick s r w :
  st (loop_body nick s r w) = w ∨
  ∃ text, loop_body nick s r w =
            Out (Ok (Active nick)) (st (_broadcast text w))
              (evs (_broadcast text w)).
Proof.
  destruct r as [data|e]; [|by left].
  destruct data as [|c data]; [by left|].
  destruct (decide (strip (c :: data) = QUIT)) as [Hq|Hq].
  - left. unfold loop_body, _recv_text. rewrite st_bind. cbn [mret M_ret ret res st].
    rewrite decide_True by done. rewrite st_bind, st_send_text.
    by destruct (res _).
  - destruct (is_whisper (strip (c :: data))) eqn:Hw.
    + left. rewrite loop_body_whisper by done.
      rewrite st_bind, st_handle_whisper. by destruct (res _).
    + right. eexists. by apply loop_body_chat.
Qed.

(** A worker that leaves the message loop runs the [finally] block on the
    registry it started the turn with. *)
Lemma step_active_leaves nick s r w :
  let o := _handle_client_step (Active nick) s r w in
  phase_of o = Closed →
  ∃ w' tr, clients w' = clients w ∧
    count_departures tr = 0 ∧
    st o = st (finally_block s nick w') ∧
    evs o = tr ++ evs (finally_block s nick w').
Proof.
  cbn zeta. cbn [_handle_client_step]. intros Hclosed.
  destruct (guarded_cases s nick (loop_body nick s r) w)
    as [(ph & Hph & Hr & _ & _)|(_ & Hst & He)].
  { unfold phase_of in Hclosed. rewrite Hr in Hclosed. done. }
  exists (st (loop_body nick s r w)), (evs (loop_body nick s r w)).
  split_and!; [|apply count_departures_loop_body|done|done].
  destruct (loop_body_st nick s r w) as [->|[text Hb]]; [done|].
  exfalso. revert Hclosed.
  by rewrite (guarded_stay _ _ _ _ _ _ _ Hb).
Qed.
Lemma handle_client_from_closed s script w :
  _handle_client_from Closed s script w = (Closed, w, []).
Proof. by destruct script. Qed.

(** A whole run of [_handle_client] announces at most one departure. *)
Lemma handle_client_departures ph s script w :
  count_departures (_handle_client_from ph s script w).2 ≤ 1.
Proof.
  revert ph w. induction script as [|r script IH]; intros ph w.
  - cbn. lia.
  - destruct (step_departures ph s r w) as [Hle Hzero].
    assert (ph = Closed ∨ ph ≠ Closed) as [->|Hph]
      by (destruct ph; [right|right|left]; done).
    { cbn. lia. }
    assert (_handle_client_from ph s (r :: script) w =
      let o := _handle_client_step ph s r w in
      let '(ph', w', tr) := _handle_client_from (phase_of o) s script (st o) in
      (ph', w', evs o ++ tr)) as -> by (by destruct ph).
    cbn zeta. specialize (IH (phase_of (_handle_client_step ph s r w))
                            (st (_handle_client_step ph s r w))).
    destruct (phase_of (_handle_client_step ph s r w)) eqn:Hp.
    + destruct (_handle_client_from _ _ _ _) as [[ph' w'] tr].
      cbn [snd] in *. rewrite count_departures_app, Hzero by done. lia.
    + destruct (_handle_client_from _ _ _ _) as [[ph' w'] tr].
      cbn [snd] in *. rewrite count_departures_app, Hzero by done. lia.
    + rewrite handle_client_from_closed. cbn [snd].
      rewrite app_nil_r. lia.
Qed.

Lemma count_departures_sweep dead w :
  count_departures (evs (sweep dead w)) = 0.
Proof. rewrite sweep_run. apply count_departures_close. Qed.

Lemma deliveries_sweep dead w : deliveries (evs (sweep dead w)) = [].
Proof. rewrite sweep_run. apply deliveries_close. Qed.

(** C5. Removal from the registry is idempotent: popping a registered
    connection yields its nickname, popping it again yields nothing and
    leaves the registry as it is.  A session that sends the quit command is
    cleaned up with exactly one departure announcement and is then out of the
    registry; a later removal of its connection by the broadcast path
    announces and writes nothing; over any run of the server each worker
    announces at most one departure, and so does any whole run of
    [_handle_client]. *)
Theorem removal_idempotent :
  (∀ (d : dict) s nick, wf d → get s d = Some nick →
     pop s d = (Some nick, remove s d) ∧
     pop s (remove s d) = (None, remove s d)) ∧
  (∀ nick s data w,
     wf (clients w) → strip data = QUIT → get s (clients w) = Some nick →
     nick ≠ [] →
     let o := _handle_client_step (Active nick) s (RecvText data) w in
     phase_of o = Closed ∧ count_departures (evs o) = 1 ∧
     (s ∉ keys (clients (st o))) ∧
     pop s (clients (st o)) = (None, clients (st o)) ∧
     count_departures (evs (sweep [s] (st o))) = 0 ∧
     deliveries (evs (sweep [s] (st o))) = [] ∧
     clients (st (sweep [s] (st o))) = clients (st o)) ∧
  (∀ σ s, reachable σ → departures s (log σ) ≤ 1) ∧
  (∀ s script w, count_departures (_handle_client s script w).2 ≤ 1).
Proof.
  split_and!; [| | |intros; apply handle_client_departures].
  - intros d s nick Hwf Hg. unfold pop. rewrite Hg.
    rewrite get_remove by done.
    rewrite (remove_notin s (remove s d)) by (by apply not_in_remove).
    done.
  - intros nick s data w Hwf Hq Hg Hn o.
    assert (Hclosed : phase_of o = Closed).
    { subst o. cbn [_handle_client_step].
      destruct (guarded_cases s nick (loop_body nick s (RecvText data)) w)
        as [(ph & Hph & Hr & _ & _)|(Hc & _)]; [|done].
      exfalso. revert Hr Hph. unfold guarded, loop_body, _recv_text. msimpl.
      destruct data as [|c data]; [vm_compute in Hq; discriminate Hq|].
      rewrite decide_True by done. msimpl. rewrite send_text_run. msimpl.
      destruct (send_fault w s) as [e|]; msimpl.
      - pose proof (finally_block_ok s nick w) as Hf.
        destruct (finally_block s nick w) as [rf wf' trf]. cbn [res] in Hf.
        subst rf. msimpl. destruct (caught e); msimpl; congruence.
      - pose proof (finally_block_ok s nick w) as Hf.
        destruct (finally_block s nick w) as [rf wf' trf]. cbn [res] in Hf.
        subst rf. msimpl. congruence. }
    destruct (step_active_leaves nick s (RecvText data) w Hclosed)
      as (w' & tr & Hw' & Htr & Hst & Hev).
    fold o in Hst, Hev.
    assert (Hwf' : wf (clients w')) by (by rewrite Hw').
    destruct (clients_finally s nick w' Hwf') as (Hwfo & Hso & _).
    rewrite <- Hst in Hwfo, Hso.
    assert (Hd : default nick (get s (clients w')) ≠ [])
      by (rewrite Hw', Hg; done).
    destruct (count_departures_finally_announced s nick w' Hd) as [Hc _].
    split_and!.
    + done.
    + rewrite Hev, count_departures_app, Htr, Hc. done.
    + done.
    + unfold pop. rewrite (proj2 (get_None _ _) Hso). by rewrite remove_notin.
    + apply count_departures_sweep.
    + apply deliveries_sweep.
    + rewrite sweep_run. cbn [st clients remove_all foldl].
      unfold remove_all. cbn [foldl]. by rewrite remove_notin.
  - intros σ s. apply departure_at_most_once.
Qed.

(** C8. A broadcast never fails.  Every registered connection whose write
    fails is removed from the registry and closed, every other entry stays,
    and the broadcast itself makes no announcement and writes nothing but its
    text.  The departure of a connection removed this way is announced by the
    worker that owns it, when that worker ends; over any run of the server
    each worker announces at most one departure. *)
Theorem broadcast_evicts_silently text w :
  wf (clients w) →
  let o := _broadcast text w in
  res o = Ok tt ∧
  (∀ s, s ∈ keys (clients w) → ¬ writable w s →
     (∃ e, EvSendFailed s (frame text) e ∈ evs o) ∧
     (s ∉ keys (clients (st o))) ∧ s ∈ closed (st o)) ∧
  (∀ s, writable w s → get s (clients (st o)) = get s (clients w)) ∧
  (∀ message, EvSystem message ∉ evs o) ∧
  (∀ s data, (s, data) ∈ deliveries (evs o) → data = frame text) ∧
  (∀ s nick r, s ∉ keys (clients (st o)) → nick ≠ [] →
     let o' := _handle_client_step (Active nick) s r (st o) in
     phase_of o' = Closed →
     count_departures (evs o') = 1 ∧ EvSystem (nick ++ LEFT) ∈ evs o') ∧
  (∀ σ s, reachable σ → departures s (log σ) ≤ 1).
Proof.
  intros Hwf o. subst o. split_and!.
  - apply broadcast_ok.
  - intros s Hin Hnw. split_and!.
    + rewrite broadcast_run. cbn [evs].
      destruct (send_fault w s) as [e|] eqn:He; [|done].
      exists e. right. apply elem_of_app. left.
      apply list_elem_of_fmap. exists s. split; [|done].
      unfold send_event. by rewrite He.
    + rewrite keys_broadcast by done. tauto.
    + rewrite broadcast_run. cbn [st closed]. apply elem_of_union. left.
      apply elem_of_list_to_set. unfold dead_of.
      by apply list_elem_of_filter.
  - intros s Hs. rewrite clients_broadcast by done.
    rewrite (get_filter (λ k, writable w k)). by rewrite decide_True.
  - intros message. rewrite broadcast_run. cbn [evs].
    rewrite not_elem_of_cons, !not_elem_of_app. split_and!; [done| | |].
    + rewrite list_elem_of_fmap. intros (s & Hs & _). revert Hs.
      unfold send_event. by destruct (send_fault w s).
    + rewrite list_elem_of_fmap. by intros (s & Hs & _).
    + by rewrite list_elem_of_singleton.
  - intros s data. rewrite broadcast_run. cbn [evs deliveries].
    rewrite !deliveries_app, deliveries_close. cbn [deliveries app].
    rewrite app_nil_r. induction (keys (clients w)) as [|k l IH].
    + by intros ?%elem_of_nil.
    + rewrite fmap_cons. unfold send_event at 1.
      destruct (send_fault w k); cbn [deliveries]; [done|].
      intros [[= _ ->]|?]%elem_of_cons; [done|auto].
  - intros s nick r Hs Hn o' Hclosed.
    destruct (step_active_leaves nick s r _ Hclosed)
      as (w' & tr & Hw' & Htr & Hst & Hev).
    fold o' in Hev. rewrite Hev.
    assert (Hd : default nick (get s (clients w')) = nick).
    { rewrite Hw'. apply get_None in Hs. by rewrite Hs. }
    destruct (count_departures_finally_announced s nick w') as [Hc Hin];
      [by rewrite Hd|].
    rewrite Hd in Hin. split.
    + by rewrite count_departures_app, Htr, Hc.
    + apply elem_of_app. by right.
  - intros σ s. apply departure_at_most_once.
Qed.
(** ** The registry lock *)

Lemma writes_locked_body w text (socks dead : list sock) tl :
  writes_locked true tl = true →
  writes_locked true ((send_event w text <$> socks) ++ (EvClose <$> dead) ++ tl)
    = true.
Proof.
  intros Htl. induction socks as [|s socks IH].
  - cbn [fmap list_fmap app]. induction dead as [|d dead IHd]; [done|].
    by rewrite fmap_cons.
  - rewrite fmap_cons. cbn [app]. unfold send_event at 1.
    by destruct (send_fault w s).
Qed.

(** C3 (as the code has it). A broadcast holds the registry lock from before
    its first write until after its last: the lock is acquired, one write is
    made per registered connection, the connections whose write failed are
    closed, and only then is the lock released.  Every write of a broadcast
    happens while the lock is held. *)
Theorem broadcast_writes_under_lock text w :
  evs (_broadcast text w) =
    EvAcquire :: (send_event w text <$> keys (clients w))
      ++ (EvClose <$> dead_of w) ++ [EvRelease] ∧
  writes_locked false (evs (_broadcast text w)) = true.
Proof.
  rewrite broadcast_run. cbn [evs]. split; [done|].
  cbn [writes_locked]. by apply writes_locked_body.
Qed.

(** C3 as stated fails: with three registered connections the broadcast
    writes to them while it holds the lock. *)
Lemma broadcast_writes_unlocked_fails :
  writes_unlocked false (evs (_broadcast (lit "hello") three_sessions)) = false.
Proof. vm_compute. reflexivity. Qed.

(** C1 as stated fails: the sender receives its own chat line. *)
Lemma chat_echo_counterexample :
  let o := _handle_client_step (Active (lit "A")) 0 (RecvText (lit "hello"))
             three_sessions in
  let line := frame (chat_text (lit "A") (lit "hello")) in
  ¬ (received 1 (evs o) = [line] ∧ received 2 (evs o) = [line] ∧
     line ∉ received 0 (evs o)).
Proof.
  intros o line (_ & _ & H). apply H.
  assert (received 0 (evs o) = [line]) as -> by (vm_compute; reflexivity).
  left.
Qed.
(** ** The registry over a run of the server *)

(** The first read leaves the registry as it was, unless it registers the
    connection and announces the join. *)
Lemma read_nickname_st s r w :
  (clients (st (read_nickname s r w)) = clients w ∧
   res (read_nickname s r w) ≠ Ok AwaitingNickname ∧
   ∀ nick, res (read_nickname s r w) ≠ Ok (Active nick)) ∨
  ∃ nick, res (read_nickname s r w) = Ok (Active nick) ∧
    st (read_nickname s r w) =
      st (_broadcast (joined_text nick) (registered s nick w)).
Proof.
  destruct r as [data|e]; [|by left].
  destruct (strip data) as [|c nick] eqn:Hn.
  - left. by rewrite read_nickname_empty.
  - right. exists (strip data).
    rewrite read_nickname_join by (rewrite Hn; done). done.
Qed.

Lemma loop_body_res nick s r w ph :
  res (loop_body nick s r w) = Ok ph → ph = Closed ∨ ph = Active nick.
Proof.
  destruct r as [data|e]; [|done].
  unfold loop_body, _recv_text. rewrite res_bind. cbn [mret M_ret ret res st].
  destruct data as [|c data]; [intros [= <-]; by left|].
  case_decide.
  - rewrite res_bind. destruct (res _); [|done]. intros [= <-]. by left.
  - destruct (_ || _); rewrite res_bind; (destruct (res _); [|done]);
      intros [= <-]; by right.
Qed.

Lemma keys_registered s nick w k :
  k ∈ keys (clients (registered s nick w)) ↔ k ∈ keys (clients w) ∨ k = s.
Proof.
  cbn [registered set_clients clients]. rewrite keys_set. case_decide.
  - split; [tauto|]. by intros [?| ->].
  - rewrite elem_of_app, list_elem_of_singleton. done.
Qed.

Lemma guarded_cases_body s nickname body w :
  let o := guarded s nickname body w in
  (∃ ph, ph ≠ Closed ∧ res (body w) = Ok ph ∧ o = body w) ∨
  ((∀ ph, res (body w) = Ok ph → ph = Closed) ∧
   phase_of o = Closed ∧
   st o = st (finally_block s nickname (st (body w)))).
Proof.
  cbn zeta. destruct (body w) as [[ph|e] w' tr] eqn:Hb; cbn [st evs res].
  - assert (ph = Closed ∨ ph ≠ Closed) as [->|Hph]
      by (destruct ph; [right|right|left]; done).
    + right. rewrite (guarded_leave _ _ _ _ _ _ Hb).
      split_and!; [by intros ? [= <-]|done|done].
    + left. exists ph. by rewrite (guarded_stay _ _ _ _ _ _ _ Hb Hph).
  - right. rewrite (guarded_raise _ _ _ _ _ _ _ Hb). unfold phase_of.
    cbn [res st evs]. by destruct (caught e).
Qed.

(** What one step of a worker does to the registry. *)
Lemma step_registry ph s r w :
  wf (clients w) → ph ≠ Closed →
  let o := _handle_client_step ph s r w in
  wf (clients (st o)) ∧
  phase_of o ≠ AwaitingNickname ∧
  (phase_of o = Closed → s ∉ keys (clients (st o))) ∧
  (∀ k, k ∈ keys (clients (st o)) → k ∈ keys (clients w) ∨ k = s).
Proof.
  intros Hwf Hph. cbn zeta.
  destruct ph as [|nick|]; [| |done]; cbn [_handle_client_step].
  - destruct (guarded_cases_body s [] (read_nickname s r) w)
      as [(ph & Hnc & Hr & ->)|(Hb & Hc & Hst)].
    + destruct (read_nickname_st s r w) as [(_ & Hna & Hnb)|(n & Hres & Hst)].
      { exfalso. destruct ph; [done|by eapply Hnb|done]. }
      assert (Hwf1 : wf (clients (registered s n w))) by (by apply wf_set).
      unfold phase_of. rewrite Hres, Hst.
      split_and!; [by apply wf_broadcast|done|done|].
      intros k. rewrite keys_broadcast by done. rewrite keys_registered. tauto.
    + rewrite Hst, Hc.
      assert (Hcl : clients (st (read_nickname s r w)) = clients w).
      { destruct (read_nickname_st s r w) as [(? & _)|(n & Hres & _)]; [done|].
        by apply Hb in Hres. }
      assert (Hwf' : wf (clients (st (read_nickname s r w))))
        by (by rewrite Hcl).
      destruct (clients_finally s [] _ Hwf') as (H1 & H2 & H3).
      split_and!; [done|done|done|].
      intros k Hk. left. rewrite <- Hcl. by apply H3.
  - destruct (guarded_cases_body s nick (loop_body nick s r) w)
      as [(ph & Hnc & Hr & ->)|(Hb & Hc & Hst)].
    + unfold phase_of. rewrite Hr.
      apply loop_body_res in Hr as [->| ->]; [done|].
      destruct (loop_body_st nick s r w) as [->|[text ->]].
      * split_and!; [done|done|done|]. by left.
      * cbn [st]. split_and!; [by apply wf_broadcast|done|done|].
        intros k. rewrite keys_broadcast by done. tauto.
    + rewrite Hst, Hc.
      assert (Hcl : clients (st (loop_body nick s r w)) = clients w).
      { destruct (loop_body_st nick s r w) as [->|[text Hbody]]; [done|].
        rewrite Hbody in Hb. by specialize (Hb _ eq_refl). }
      assert (Hwf' : wf (clients (st (loop_body nick s r w))))
        by (by rewrite Hcl).
      destruct (clients_finally s nick _ Hwf') as (H1 & H2 & H3).
      split_and!; [done|done|done|].
      intros k Hk. left. rewrite <- Hcl. by apply H3.
Qed.

Lemma registry_sound_init : registry_sound init.
Proof.
  split_and!; [done|apply NoDup_nil_2|]. by intros s ?%elem_of_nil.
Qed.

Lemma registry_sound_step σ l σ' :
  registry_sound σ → step σ l = Some σ' → registry_sound σ'.
Proof.
  intros (Hfresh & Hwf & Hreg) Hstep.
  destruct l as [|s r|s e]; cbn [step] in Hstep.
  - injection Hstep as <-. split_and!; cbn [next_sock workers srv].
    + intros s Hs. rewrite lookup_insert_ne by lia. apply Hfresh. lia.
    + done.
    + intros s Hs. destruct (Hreg s Hs) as [nick Hw]. exists nick.
      rewrite lookup_insert_ne; [done|]. intros <-.
      rewrite Hfresh in Hw by lia. done.
  - destruct (workers σ !! s) as [ph|] eqn:Hph; [|done].
    assert (Hnc : ph ≠ Closed) by (intros ->; done).
    assert (Hsome : Some σ' =
      Some (System (st (_handle_client_step ph s r (srv σ))) (next_sock σ)
              (<[s := phase_of (_handle_client_step ph s r (srv σ))]> (workers σ))
              (log σ ++ (pair s <$> evs (_handle_client_step ph s r (srv σ))))))
      by (rewrite <- Hstep; by destruct ph).
    injection Hsome as ->. clear Hstep.
    destruct (step_registry ph s r (srv σ) Hwf Hnc) as (Hwf' & Hna & Hcl & Hsub).
    split_and!; cbn [next_sock workers srv].
    + intros s' Hs'. destruct (decide (s' = s)) as [->|Hne].
      * rewrite Hfresh in Hph by done. done.
      * rewrite lookup_insert_ne by done. by apply Hfresh.
    + done.
    + intros k Hk. destruct (decide (k = s)) as [->|Hne].
      * rewrite lookup_insert_eq.
        destruct (phase_of _) as [|nick|] eqn:Hp; [done|by exists nick|].
        by destruct (Hcl eq_refl).
      * rewrite lookup_insert_ne by done.
        destruct (Hsub k Hk) as [Hin|?]; [by apply Hreg|done].
  - destruct (workers σ !! s); [|done]. injection Hstep as <-.
    split_and!; done.
Qed.

Lemma reachable_registry_sound σ : reachable σ → registry_sound σ.
Proof.
  intros [ls Hrun].
  eapply (run_invariant registry_sound);
    [apply registry_sound_step|apply registry_sound_init|exact Hrun].
Qed.

(** C4. In every reachable state of the server, when the first line read by
    a worker is empty after trimming, the step closes the connection and ends
    the worker; nothing is written to any connection, no announcement is
    made, and the registry is left as it was, without the connection. *)
Theorem empty_nickname_discarded σ s data :
  reachable σ →
  workers σ !! s = Some AwaitingNickname →
  strip data = [] →
  ∃ σ', step σ (LRecv s (RecvText data)) = Some σ' ∧
    workers σ' !! s = Some Closed ∧
    s ∈ closed (srv σ') ∧
    clients (srv σ') = clients (srv σ) ∧
    (s ∉ keys (clients (srv σ'))) ∧
    log σ' = log σ ++
      [(s, EvClose s); (s, EvAcquire); (s, EvRelease); (s, EvClose s)].
Proof.
  intros Hreach Hph Hn.
  destruct (reachable_registry_sound σ Hreach) as (_ & _ & Hreg).
  assert (Hs : s ∉ keys (clients (srv σ))).
  { intros Hin. destruct (Hreg s Hin) as [nick Hw]. congruence. }
  eexists. cbn [step]. rewrite Hph. split; [reflexivity|].
  rewrite (step_empty_nickname s data (srv σ) Hn Hs).
  cbn [workers srv log st evs clients closed phase_of res].
  split_and!; [by rewrite lookup_insert_eq| |done|done|done].
  apply elem_of_union. left. by apply elem_of_singleton.
Qed.
(** ** The properties at concrete inputs *)

Lemma three_sessions_wf : wf (clients three_sessions).
Proof.
  exact (bool_decide_unpack (NoDup (keys (clients three_sessions))) I).
Defined.

Lemma chat_fanout_with_echo_witness :
  let o := _handle_client_step (Active (lit "A")) 0 (RecvText (lit "hello"))
             three_sessions in
  let line := frame (chat_text (lit "A") (strip (lit "hello"))) in
  (∀ r, r ∈ keys (clients three_sessions) → writable three_sessions r →
        received r (evs o) = [line]) ∧
  (writable three_sessions 0 → received 0 (evs o) = [line]) ∧
  (∀ r, r ∉ keys (clients three_sessions) → received r (evs o) = []).
Proof.
  apply (chat_fanout_with_echo (lit "A") 0 (lit "hello") three_sessions).
  - exact three_sessions_wf.
  - vm_compute. reflexivity.
  - vm_compute. discriminate.
  - split; [vm_compute; discriminate|vm_compute; reflexivity].
Defined.

Lemma whisper_delivers_witness :
  let o := _handle_whisper (lit "A") (lit "/w B secret") 0 three_sessions in
  st o = three_sessions ∧
  received 1 (evs o) = [frame (whisper_text (lit "A") (lit "secret"))] ∧
  res o = Ok tt ∧
  deliveries (evs o) =
    [(1, frame (whisper_text (lit "A") (lit "secret")));
     (0, frame (whisper_sent_text (lit "A") (lit "B") (lit "secret")))] ∧
  length (deliveries (evs o)) = 2.
Proof.
  destruct (whisper_delivers (lit "A") (lit "/w B secret") (lit "/w") (lit "B")
              (lit "secret") 0 1 three_sessions) as (Hst & Hrecv & Hsent);
    [vm_compute; reflexivity..|].
  split; [exact Hst|]. split; [exact Hrecv|].
  apply Hsent. vm_compute. reflexivity.
Defined.

(** C2 as first stated fails when the target is registered but its peer is
    gone: with B unreachable, A's whisper to B reaches nobody, neither B nor,
    as a confirmation, A. *)
Lemma whisper_dead_target_counterexample :
  let o := _handle_whisper (lit "A") (lit "/w B secret") 0 b_gone in
  ¬ (∀ t, find_nick (lit "B") (clients b_gone) = Some t →
          received t (evs o) = [frame (whisper_text (lit "A") (lit "secret"))] ∧
          received 0 (evs o) =
            [frame (whisper_sent_text (lit "A") (lit "B") (lit "secret"))] ∧
          length (deliveries (evs o)) = 2).
Proof.
  intros o H. destruct (H 1) as (_ & _ & Hlen); [vm_compute; reflexivity|].
  vm_compute in Hlen. discriminate.
Qed.


Lemma accepted_once_reachable : reachable accepted_once.
Proof. exists [LAccept]. reflexivity. Defined.

Lemma empty_nickname_discarded_witness :
  ∃ σ', step accepted_once (LRecv 0 (RecvText (lit "  "))) = Some σ' ∧
    workers σ' !! 0 = Some Closed ∧
    0 ∈ closed (srv σ') ∧
    clients (srv σ') = clients (srv accepted_once) ∧
    (0 ∉ keys (clients (srv σ'))) ∧
    log σ' = log accepted_once ++
      [(0, EvClose 0); (0, EvAcquire); (0, EvRelease); (0, EvClose 0)].
Proof.
  apply (empty_nickname_discarded accepted_once 0 (lit "  ")).
  - exact accepted_once_reachable.
  - vm_compute. reflexivity.
  - vm_compute. reflexivity.
Defined.

Lemma removal_idempotent_witness :
  (pop 1 (clients three_sessions) = (Some (lit "B"), remove 1 (clients three_sessions)) ∧
   pop 1 (remove 1 (clients three_sessions)) = (None, remove 1 (clients three_sessions))) ∧
  (let o := _handle_client_step (Active (lit "A")) 0 (RecvText (lit "/종료"))
              three_sessions in
   phase_of o = Closed ∧ count_departures (evs o) = 1 ∧
   (0 ∉ keys (clients (st o))) ∧
   pop 0 (clients (st o)) = (None, clients (st o)) ∧
   count_departures (evs (sweep [0] (st o))) = 0 ∧
   deliveries (evs (sweep [0] (st o))) = [] ∧
   clients (st (sweep [0] (st o))) = clients (st o)) ∧
  departures 0 (log accepted_once) ≤ 1.
Proof.
  destruct removal_idempotent as (Hpop & Hquit & Hrun & _). split; [|split].
  - apply Hpop; [exact three_sessions_wf|vm_compute; reflexivity].
  - apply (Hquit (lit "A") 0 (lit "/종료") three_sessions).
    + exact three_sessions_wf.
    + vm_compute. reflexivity.
    + vm_compute. reflexivity.
    + vm_compute. discriminate.
  - apply Hrun. exact accepted_once_reachable.
Defined.


Lemma inbound_frame_trimmed_witness :
  let b := _broadcast (lit "A" ++ PROMPT ++ strip (lit "  hi there  ")) three_sessions in
  strip (lit "  hi there  ") = lit "hi there" ∧
  _handle_client_step (Active (lit "A")) 0 (RecvText (lit "  hi there  "))
    three_sessions = Out (Ok (Active (lit "A"))) (st b) (evs b).
Proof.
  assert (Hdata : lit "  hi there  " ≠ []) by (vm_compute; discriminate).
  destruct (inbound_frame_trimmed (lit "A") 0 (lit "  hi there  ")
              three_sessions Hdata) as (_ & _ & _ & _ & Hchat & _).
  split; [vm_compute; reflexivity|].
  apply Hchat. split; [vm_compute; discriminate|vm_compute; reflexivity].
Defined.

Lemma join_announced_to_self_witness :
  let nick := strip (lit " D ") in
  let o := _handle_client_step AwaitingNickname 3 (RecvText (lit " D "))
             three_sessions in
  let w1 := registered 3 nick three_sessions in
  res o = Ok (Active nick) ∧
  get 3 (clients w1) = Some nick ∧
  evs o = [EvAcquire; EvRelease; EvSystem (nick ++ JOINED)]
            ++ evs (_broadcast (joined_text nick) w1) ∧
  (writable three_sessions 3 → received 3 (evs o) = [frame (joined_text nick)]) ∧
  (∀ r, r ∈ keys (clients three_sessions) → writable three_sessions r →
        received r (evs o) = [frame (joined_text nick)]).
Proof.
  apply (join_announced_to_self 3 (lit " D ") three_sessions).
  - exact three_sessions_wf.
  - vm_compute. discriminate.
Defined.

Lemma b_gone_wf : wf (clients b_gone).
Proof. exact (bool_decide_unpack (NoDup (keys (clients b_gone))) I). Defined.

Lemma broadcast_evicts_silently_witness :
  let o := _broadcast (lit "hi") b_gone in
  res o = Ok tt ∧
  ((∃ e, EvSendFailed 1 (frame (lit "hi")) e ∈ evs o) ∧
   (1 ∉ keys (clients (st o))) ∧ 1 ∈ closed (st o)) ∧
  get 0 (clients (st o)) = get 0 (clients b_gone) ∧
  (let o' := _handle_client_step (Active (lit "B")) 1 (RecvText []) (st o) in
   count_departures (evs o') = 1 ∧ EvSystem (lit "B" ++ LEFT) ∈ evs o') ∧
  departures 0 (log accepted_once) ≤ 1.
Proof.
  destruct (broadcast_evicts_silently (lit "hi") b_gone b_gone_wf)
    as (Hok & Hdead & Hlive & _ & _ & Howner & Hrun).
  assert (Hin : 1 ∈ keys (clients b_gone))
    by exact (bool_decide_unpack (1 ∈ keys (clients b_gone)) I).
  assert (Hnw : ¬ writable b_gone 1) by (vm_compute; discriminate).
  destruct (Hdead 1 Hin Hnw) as (Hfail & Hout & Hclosed).
  split_and!; [exact Hok|exact Hfail|exact Hout|exact Hclosed| | |].
  - apply Hlive. vm_compute. reflexivity.
  - apply (Howner 1 (lit "B") (RecvText []) Hout).
    + vm_compute. discriminate.
    + vm_compute. reflexivity.
  - apply Hrun. exact accepted_once_reachable.
Defined.

(** ** Scenarios *)

Example whole_session :
  _handle_client 3 [RecvText (lit "D"); RecvText (lit "hi"); RecvText (lit "/종료")]
    (World [(0, lit "A")] ∅ ∅) =
  (Closed, World [(0, lit "A")] ∅ {[3]},
   [EvAcquire; EvRelease; EvSystem (lit "D" ++ JOINED);
    EvAcquire; EvSent 0 (frame (joined_text (lit "D")));
    EvSent 3 (frame (joined_text (lit "D"))); EvRelease;
    EvAcquire; EvSent 0 (frame (chat_text (lit "D") (lit "hi")));
    EvSent 3 (frame (chat_text (lit "D") (lit "hi"))); EvRelease;
    EvSent 3 (frame FAREWELL);
    EvAcquire; EvRelease; EvClose 3; EvSystem (lit "D" ++ LEFT);
    EvAcquire; EvSent 0 (frame (left_text (lit "D"))); EvRelease]).
Proof. vm_compute. reflexivity. Qed.

Example whisper_third_party_silent :
  received 2 (evs (_handle_whisper (lit "A") (lit "/w B secret") 0 three_sessions))
    = [].
Proof. vm_compute. reflexivity. Qed.

Example broadcast_with_dead_peer :
  let o := _broadcast (lit "x") b_gone in
  clients (st o) = [(0, lit "A"); (2, lit "C")] ∧
  evs o = [EvAcquire; EvSent 0 (lit "x
"); EvSendFailed 1 (lit "x
") BrokenPipeError; EvSent 2 (lit "x
"); EvClose 1; EvRelease].
Proof. split; vm_compute; reflexivity. Qed.

Example three_sessions_reached :
  srv <$> run init [LAccept; LAccept; LAccept;
                    LRecv 0 (RecvText (lit "A")); LRecv 1 (RecvText (lit "B"));
                    LRecv 2 (RecvText (lit "C"))]
    = Some three_sessions.
Proof. vm_compute. reflexivity. Qed.

Example bare_prefix_is_chat :
  is_whisper (lit "/w") = false ∧ is_whisper (lit "/w B") = true ∧
  is_whisper (lit "/귓속말 B hi") = true.
Proof. repeat split; vm_compute; reflexivity. Qed.

Example join_then_leave_seen_by_others :
  let '(_, _, tr) :=
    _handle_client 3 [RecvText (lit "Alice"); RecvText []]
      (World [(0, lit "A")] ∅ ∅) in
  received 0 tr = [frame (joined_text (lit "Alice"));
                   frame (left_text (lit "Alice"))].
Proof. vm_compute. reflexivity. Qed.

(** ** Shutdown *)

Lemma send_fault_closed_other w s s' :
  s' ≠ s →
  send_fault (World (clients w) (peer_fault w) ({[s]} ∪ closed w)) s' =
    send_fault w s'.
Proof.
  intros Hne. unfold send_fault. cbn [closed peer_fault].
  destruct (decide (s' ∈ closed w)) as [Hin|Hout].
  - rewrite decide_True by (apply elem_of_union; by right). done.
  - rewrite decide_False; [done|].
    rewrite elem_of_union, elem_of_singleton. tauto.
Qed.

Lemma notify_events_closed_other w s (socks : list sock) :
  s ∉ socks →
  socks ≫= notify_events (World (clients w) (peer_fault w) ({[s]} ∪ closed w))
    = socks ≫= notify_events w.
Proof.
  induction socks as [|s' socks IH]; [done|].
  intros [Hne Hs]%not_elem_of_cons. cbn [mbind list_bind].
  fold (socks ≫= notify_events w). rewrite <- IH by done.
  f_equal. unfold notify_events, send_event.
  by rewrite send_fault_closed_other.
Qed.

Lemma notify_each_run socks w :
  NoDup socks →
  notify_each socks w =
    Out (Ok tt)
      (World (clients w) (peer_fault w) (list_to_set socks ∪ closed w))
      (socks ≫= notify_events w).
Proof.
  intros Hnd. revert w. induction Hnd as [|s socks Hs Hnd IH]; intros w.
  - cbn. destruct w as [c f cl]. cbn. by rewrite (left_id_L ∅ (∪)).
  - cbn [notify_each].
    assert (Hsend : try_except (_send_text s SHUTDOWN) (λ _, mret tt) w =
                    Out (Ok tt) w [send_event w SHUTDOWN s]).
    { unfold try_except. rewrite send_text_run.
      destruct (send_fault w s); msimpl; by rewrite ?app_nil_r. }
    erewrite run_bind_ok by exact Hsend.
    erewrite run_bind_ok by reflexivity.
    rewrite IH. msimpl. rewrite notify_events_closed_other by done.
    cbn [list_to_set]. by rewrite (assoc_L (∪)), (comm_L (∪) _ {[s]}).
Qed.

Lemma shutdown_clients_run w :
  wf (clients w) →
  shutdown_clients w =
    Out (Ok tt)
      (World [] (peer_fault w) (list_to_set (keys (clients w)) ∪ closed w))
      (EvAcquire :: (keys (clients w) ≫= notify_events w) ++ [EvRelease]).
Proof.
  intros Hwf. unfold shutdown_clients. msimpl.
  rewrite notify_each_run by done. msimpl. by rewrite app_nil_r.
Qed.

Lemma received_notify_events w s s' :
  received s (notify_events w s') =
    if decide (s' = s ∧ writable w s) then [frame SHUTDOWN] else [].
Proof.
  unfold notify_events, send_event.
  destruct (decide (s' = s)) as [->|Hne].
  - destruct (send_fault w s) as [e|] eqn:He; cbn [received].
    + rewrite decide_False; [done|]. unfold writable. intros [_ ?]. congruence.
    + rewrite decide_True by done. by rewrite decide_True.
  - rewrite (decide_False (P := _ ∧ _)) by tauto.
    destruct (send_fault w s'); cbn [received]; [done|].
    by rewrite decide_False.
Qed.

Lemma received_bind_notify w s (socks : list sock) :
  NoDup socks →
  received s (socks ≫= notify_events w) =
    if decide (s ∈ socks ∧ writable w s) then [frame SHUTDOWN] else [].
Proof.
  induction 1 as [|s' socks Hs' Hnd IH].
  - cbn. rewrite decide_False; [done|]. intros [?%elem_of_nil _]. done.
  - cbn [mbind list_bind]. fold (socks ≫= notify_events w).
    rewrite received_app, IH, received_notify_events.
    destruct (decide (s' = s ∧ writable w s)) as [[-> Hw]|Hn].
    + rewrite decide_False by tauto. rewrite decide_True; [done|].
      split; [left|done].
    + cbn [app]. apply decide_ext.
      split; [intros [? ?]; split; [by right|done]|].
      intros [[->|?]%elem_of_cons ?]; [destruct Hn; done|done].
Qed.

Lemma writes_locked_notify w (socks : list sock) tl :
  writes_locked true tl = true →
  writes_locked true ((socks ≫= notify_events w) ++ tl) = true.
Proof.
  intros Htl. induction socks as [|s socks IH]; [done|].
  cbn [mbind list_bind]. fold (socks ≫= notify_events w).
  unfold notify_events at 1, send_event. cbn [app].
  destruct (send_fault w s); cbn [writes_locked andb]; exact IH.
Qed.

(** X1. [_shutdown] never raises, whatever the writes do.  Every registered
    connection that can be written to receives the shutdown notice exactly
    once, no other connection is written to, every registered connection is
    closed (and no other), the registry is emptied and the listening socket
    is closed; all of it happens while the registry lock is held. *)
Theorem shutdown_notifies_closes_clears sv :
  wf (clients (core sv)) →
  let w := core sv in
  let r := _shutdown sv in
  r.1.1 = Ok tt ∧
  clients (core r.1.2) = [] ∧
  server_socket_open r.1.2 = false ∧
  peer_fault (core r.1.2) = peer_fault w ∧
  (∀ s, s ∈ closed (core r.1.2) ↔ s ∈ keys (clients w) ∨ s ∈ closed w) ∧
  (∀ s, received s r.2 =
          if decide (s ∈ keys (clients w) ∧ writable w s)
          then [frame SHUTDOWN] else []) ∧
  writes_locked false r.2 = true.
Proof.
  intros Hwf w r. subst w r. unfold _shutdown.
  rewrite shutdown_clients_run by done. cbn [res st evs fst snd core
    server_socket_open clients peer_fault closed].
  split_and!; [done|done|done|done| | |].
  - intros s. rewrite elem_of_union, elem_of_list_to_set. done.
  - intros s. cbn [received]. rewrite received_app. cbn [received].
    rewrite app_nil_r. by apply received_bind_notify.
  - cbn [writes_locked]. by apply writes_locked_notify.
Qed.

Lemma shutdown_notifies_closes_clears_witness :
  let w := core (Server b_gone true) in
  let r := _shutdown (Server b_gone true) in
  r.1.1 = Ok tt ∧
  clients (core r.1.2) = [] ∧
  server_socket_open r.1.2 = false ∧
  peer_fault (core r.1.2) = peer_fault w ∧
  (∀ s, s ∈ closed (core r.1.2) ↔ s ∈ keys (clients w) ∨ s ∈ closed w) ∧
  (∀ s, received s r.2 =
          if decide (s ∈ keys (clients w) ∧ writable w s)
          then [frame SHUTDOWN] else []) ∧
  writes_locked false r.2 = true.
Proof.
  apply (shutdown_notifies_closes_clears (Server b_gone true)).
  exact b_gone_wf.
Defined.

Example shutdown_with_dead_peer :
  _shutdown (Server b_gone true) =
    (Ok tt, Server (World [] {[1 := BrokenPipeError]} {[0; 1; 2]}) false,
     [EvAcquire;
      EvSent 0 (frame SHUTDOWN); EvClose 0;
      EvSendFailed 1 (frame SHUTDOWN) BrokenPipeError; EvClose 1;
      EvSent 2 (frame SHUTDOWN); EvClose 2;
      EvRelease]).
Proof. vm_compute. reflexivity. Qed.

Lemma broadcast_empty text w :
  clients w = [] → _broadcast text w = Out (Ok tt) w [EvAcquire; EvRelease].
Proof.
  destruct w as [c f cl]. cbn [clients]. intros ->.
  rewrite broadcast_run. unfold dead_of. cbn.
  by rewrite (left_id_L ∅ (∪)).
Qed.

Lemma shutdown_clients_empty w :
  clients w = [] → shutdown_clients w = Out (Ok tt) w [EvAcquire; EvRelease].
Proof.
  destruct w as [c f cl]. cbn [clients]. intros ->.
  rewrite shutdown_clients_run by apply NoDup_nil_2. cbn.
  by rewrite (left_id_L ∅ (∪)).
Qed.

(** X2. Once [_shutdown] has run, the registry is empty: running it again
    writes to nobody, closes nothing and leaves the server as it is; a
    broadcast reaches nobody; and no nickname resolves to a connection. *)
Theorem shutdown_is_final sv :
  wf (clients (core sv)) →
  let sv' := (_shutdown sv).1.2 in
  _shutdown sv' = (Ok tt, sv', [EvAcquire; EvRelease]) ∧
  (∀ text, _broadcast text (core sv') =
             Out (Ok tt) (core sv') [EvAcquire; EvRelease]) ∧
  (∀ name, _find_socket_by_name name (core sv') =
             Out (Ok None) (core sv') [EvAcquire; EvRelease]).
Proof.
  intros Hwf sv'.
  assert (Hc : clients (core sv') = [] ∧ server_socket_open sv' = false).
  { subst sv'. unfold _shutdown. by rewrite shutdown_clients_run. }
  destruct Hc as [Hc Ho]. clearbody sv'. destruct sv' as [w' o'].
  cbn [core server_socket_open] in *. subst o'. split_and!.
  - unfold _shutdown. cbn [core server_socket_open].
    by rewrite shutdown_clients_empty.
  - intros text. by apply broadcast_empty.
  - intros name. rewrite find_socket_run. by rewrite Hc.
Qed.

Lemma shutdown_is_final_witness :
  let sv' := (_shutdown (Server b_gone true)).1.2 in
  _shutdown sv' = (Ok tt, sv', [EvAcquire; EvRelease]) ∧
  (∀ text, _broadcast text (core sv') =
             Out (Ok tt) (core sv') [EvAcquire; EvRelease]) ∧
  (∀ name, _find_socket_by_name name (core sv') =
             Out (Ok None) (core sv') [EvAcquire; EvRelease]).
Proof. apply (shutdown_is_final (Server b_gone true)). exact b_gone_wf. Defined.

(** ** Lookup by nickname *)

Lemma find_nick_app name (d1 d2 : dict) :
  find_nick name (d1 ++ d2) =
    match find_nick name d1 with
    | Some s => Some s
    | None => find_nick name d2
    end.
Proof.
  induction d1 as [|[s nick] d1 IH]; [done|].
  cbn [app find_nick]. by case_decide.
Qed.

Lemma find_nick_None name (d : dict) :
  find_nick name d = None ↔ name ∉ d.*2.
Proof.
  induction d as [|[s nick] d IH]; cbn [find_nick].
  - split; [intros _; apply not_elem_of_nil|done].
  - rewrite fmap_cons, not_elem_of_cons. cbn [snd]. case_decide.
    + split; [done|]. intros [? _]. congruence.
    + rewrite IH. split; [intros ?; split; [congruence|done]|tauto].
Qed.

Lemma find_nick_Some name (d : dict) s :
  find_nick name d = Some s ↔
  ∃ pre post, d = pre ++ (s, name) :: post ∧ name ∉ pre.*2.
Proof.
  split.
  - induction d as [|[s' nick] d IH]; cbn [find_nick]; [done|].
    case_decide as Hn.
    + intros [= ->]. subst nick. exists [], d. split; [done|apply not_elem_of_nil].
    + intros (pre & post & -> & Hpre)%IH. exists ((s', nick) :: pre), post.
      split; [done|]. rewrite fmap_cons, not_elem_of_cons. cbn [snd].
      split; [congruence|done].
  - intros (pre & post & -> & Hpre). rewrite find_nick_app.
    rewrite (proj2 (find_nick_None _ _) Hpre). cbn [find_nick].
    by rewrite decide_True.
Qed.

(** X3. [_find_socket_by_name] never raises and leaves the world as it is.
    It returns the first connection, in registration order, whose nickname
    is the name asked for: every entry before it has another nickname; and
    it returns nothing exactly when no entry has that nickname. *)
Theorem find_socket_first_match name w :
  let o := _find_socket_by_name name w in
  st o = w ∧ evs o = [EvAcquire; EvRelease] ∧
  (∃ found, res o = Ok found ∧
     match found with
     | Some s => ∃ pre post,
         clients w = pre ++ (s, name) :: post ∧ name ∉ pre.*2
     | None => name ∉ (clients w).*2
     end).
Proof.
  cbn zeta. rewrite find_socket_run. cbn [res st evs].
  split_and!; [done|done|]. exists (find_nick name (clients w)).
  split; [done|]. destruct (find_nick name (clients w)) as [s|] eqn:Hf.
  - by apply find_nick_Some.
  - by apply find_nick_None.
Qed.

Lemma set_fresh k v (d : dict) : k ∉ keys d → set k v d = d ++ [(k, v)].
Proof.
  induction d as [|[k' v'] d IH]; [done|].
  intros [Hne Hk]%not_elem_of_cons. cbn [set app].
  rewrite decide_False by done. by rewrite IH.
Qed.

(** X4. Registering a new connection does not take over a nickname that
    already resolves: lookups that found a connection before find the same
    one after, and only a name that resolved to nothing now resolves to the
    newcomer, when it is the newcomer's nickname. *)
Theorem registration_keeps_earlier_holder s nick name (d : dict) :
  s ∉ keys d →
  find_nick name (set s nick d) =
    match find_nick name d with
    | Some t => Some t
    | None => if decide (nick = name) then Some s else None
    end.
Proof.
  intros Hs. rewrite set_fresh by done. rewrite find_nick_app.
  destruct (find_nick name d); [done|]. cbn [find_nick]. by case_decide.
Qed.

Lemma registration_keeps_earlier_holder_witness :
  find_nick (lit "B") (set 3 (lit "B") (clients three_sessions)) =
    match find_nick (lit "B") (clients three_sessions) with
    | Some t => Some t
    | None => if decide (lit "B" = lit "B") then Some 3 else None
    end.
Proof.
  apply (registration_keeps_earlier_holder 3 (lit "B") (lit "B")
           (clients three_sessions)).
  vm_compute. intros H. repeat (apply elem_of_cons in H as [H|H]; [discriminate H|]).
  by apply elem_of_nil in H.
Defined.

Lemma find_nick_remove_other name s (d : dict) :
  (∀ v, get s d = Some v → v ≠ name) →
  find_nick name (remove s d) = find_nick name d.
Proof.
  induction d as [|[s' nick] d IH]; [done|].
  cbn [remove find_nick get].
  destruct (decide (s = s')) as [->|Hne]; intros Hv.
  - rewrite decide_False; [done|]. intros ->. by eapply Hv.
  - cbn [find_nick]. case_decide; [done|]. by apply IH.
Qed.

(** X5. When the connection a nickname resolves to is removed from the
    registry, the nickname resolves to the next connection registered under
    it, if there is one; removing any connection that holds another nickname
    changes nothing for this one. *)
Theorem removal_hands_nickname_on name s (d : dict) :
  wf d →
  (∀ pre post, d = pre ++ (s, name) :: post → name ∉ pre.*2 →
     find_nick name d = Some s ∧
     find_nick name (remove s d) = find_nick name post) ∧
  ((∀ v, get s d = Some v → v ≠ name) →
     find_nick name (remove s d) = find_nick name d).
Proof.
  intros Hwf. split; [|apply find_nick_remove_other].
  intros pre post -> Hpre.
  split; [apply find_nick_Some; by exists pre, post|].
  assert (Hs : s ∉ keys pre).
  { unfold wf, keys in Hwf. rewrite fmap_app in Hwf.
    apply NoDup_app in Hwf as (_ & Hdis & _).
    intros Hin. apply (Hdis s Hin). rewrite fmap_cons. left. }
  clear Hwf. induction pre as [|[k v] pre IH]; cbn [app remove find_nick].
  - by rewrite decide_True.
  - unfold keys in Hs. rewrite fmap_cons in Hs.
    apply not_elem_of_cons in Hs as [Hne Hs]. cbn [fst] in Hne.
    rewrite fmap_cons in Hpre. apply not_elem_of_cons in Hpre as [Hv Hpre].
    cbn [snd] in Hv. rewrite decide_False by done. cbn [find_nick].
    rewrite decide_False by congruence. by apply IH.
Qed.

Lemma removal_hands_nickname_on_witness :
  find_nick (lit "B") [(0, lit "A"); (1, lit "B"); (2, lit "B")] = Some 1 ∧
  find_nick (lit "B") (remove 1 [(0, lit "A"); (1, lit "B"); (2, lit "B")])
    = find_nick (lit "B") [(2, lit "B")].
Proof.
  destruct (removal_hands_nickname_on (lit "B") 1
              [(0, lit "A"); (1, lit "B"); (2, lit "B")]) as [H _].
  - exact (bool_decide_unpack (NoDup [0; 1; 2]) I).
  - apply (H [(0, lit "A")] [(2, lit "B")]); [reflexivity|].
    vm_compute. intros Hin.
    apply elem_of_cons in Hin as [Hin|Hin]; [discriminate Hin|].
    by apply elem_of_nil in Hin.
Defined.

(** ** Splitting *)

Lemma partition_at_spec sep s :
  match partition_at sep s with
  | (pre, Some post) => s = pre ++ sep :: post ∧ sep ∉ pre
  | (pre, None) => s = pre ∧ sep ∉ s
  end.
Proof.
  induction s as [|c s IH]; cbn [partition_at].
  - split; [done|apply not_elem_of_nil].
  - destruct (N.eqb_spec c sep) as [->|Hne].
    + split; [done|apply not_elem_of_nil].
    + destruct (partition_at sep s) as [pre [post|]].
      * destruct IH as [-> Hpre]. split; [done|].
        rewrite not_elem_of_cons. split; [congruence|done].
      * destruct IH as [-> Hs]. split; [done|].
        rewrite not_elem_of_cons. split; [congruence|done].
Qed.

Lemma split_nonempty sep n s : split sep n s ≠ [].
Proof. destruct n; cbn [split]; [done|]. by destruct (partition_at sep s) as [? [?|]]. Qed.

Lemma join_cons sep p rest :
  rest ≠ [] → join sep (p :: rest) = p ++ sep :: join sep rest.
Proof. by destruct rest. Qed.

Lemma count_char_app c s1 s2 :
  count_char c (s1 ++ s2) = count_char c s1 + count_char c s2.
Proof. unfold count_char. by rewrite filter_app, length_app. Qed.

Lemma count_char_notin c s : c ∉ s → count_char c s = 0.
Proof.
  unfold count_char. induction s as [|x s IH]; [done|].
  intros [Hne Hs]%not_elem_of_cons. rewrite filter_cons_False by congruence.
  auto.
Qed.

(** X6. [split] loses nothing: joining the parts with the separator gives
    the string back.  Every part but the last is free of the separator, and
    the number of parts is one more than the number of separators, capped at
    [maxsplit + 1]. *)
Theorem split_join_roundtrip sep n s :
  join sep (split sep n s) = s ∧
  (∀ i p, i < length (split sep n s) - 1 →
          split sep n s !! i = Some p → sep ∉ p) ∧
  length (split sep n s) = S (min n (count_char sep s)).
Proof.
  revert s. induction n as [|n IH]; intros s; cbn [split].
  - split_and!; [done| |reflexivity]. intros i p Hi. cbn in Hi. lia.
  - pose proof (partition_at_spec sep s) as Hp.
    destruct (partition_at sep s) as [pre [post|]].
    + destruct Hp as [-> Hpre]. destruct (IH post) as (Hj & Hparts & Hlen).
      split_and!.
      * rewrite join_cons by apply split_nonempty. by rewrite Hj.
      * intros [|i] p Hi; cbn [lookup list_lookup].
        -- by intros [= <-].
        -- cbn [length] in Hi. apply Hparts. lia.
      * cbn [length]. rewrite Hlen, count_char_app.
        rewrite (count_char_notin sep pre) by done.
        unfold count_char at 2. rewrite filter_cons_True by done.
        cbn [length]. fold (count_char sep post). lia.
    + destruct Hp as [-> Hs]. split_and!; [done| |].
      * intros i p Hi. cbn in Hi. lia.
      * rewrite count_char_notin by done. cbn. lia.
Qed.

Lemma startswith_app p s : startswith p s = true → ∃ rest, s = p ++ rest.
Proof.
  revert s. induction p as [|a p IH]; intros s; [by exists s|].
  destruct s as [|b s]; cbn [startswith]; [done|].
  intros [Hab Hps]%andb_true_iff. apply N.eqb_eq in Hab as ->.
  destruct (IH s Hps) as [rest ->]. by exists rest.
Qed.

(** X7. What [_handle_whisper] takes from a whisper line.  The first part is
    the command, [/w] or its Korean form.  With three parts the line is
    exactly command, space, target, space, body: the target is the text up
    to the next space and holds no space, the body is everything after it
    and keeps its own spaces.  With fewer than three parts the line has no
    space after the target. *)
Theorem whisper_line_anatomy msg :
  is_whisper msg = true →
  ∃ cmd rest,
    (cmd = lit "/w" ∨ cmd = lit "/귓속말") ∧
    msg = cmd ++ SPACE :: rest ∧
    (∀ c target body, split SPACE 2 msg = [c; target; body] →
       c = cmd ∧ rest = target ++ SPACE :: body ∧ SPACE ∉ target) ∧
    (length (split SPACE 2 msg) < 3 →
       split SPACE 2 msg = [cmd; rest] ∧ SPACE ∉ rest).
Proof.
  unfold is_whisper. intros Hw.
  assert (∃ cmd rest, (cmd = lit "/w" ∨ cmd = lit "/귓속말") ∧
            msg = cmd ++ SPACE :: rest ∧
            partition_at SPACE msg = (cmd, Some rest))
    as (cmd & rest & Hcmd & -> & Hpart).
  { apply orb_true_iff in Hw as [Hw|Hw];
      apply startswith_app in Hw as [rest ->].
    - exists (lit "/w"), rest. split_and!; [by left|done|].
      vm_compute lit. cbn [partition_at WHISPER_W app N.eqb Pos.eqb SPACE].
      by destruct (partition_at 32 rest).
    - exists (lit "/귓속말"), rest. split_and!; [by right|done|].
      vm_compute lit. cbn [partition_at WHISPER_KO app N.eqb Pos.eqb SPACE].
      by destruct (partition_at 32 rest). }
  exists cmd, rest. split_and!; [done|done| |].
  - intros c target body. cbn [split]. rewrite Hpart.
    pose proof (partition_at_spec SPACE rest) as Hp.
    destruct (partition_at SPACE rest) as [pre [post|]]; [|done].
    intros [= <- <- <-]. by destruct Hp as [-> ?].
  - cbn [split]. rewrite Hpart.
    pose proof (partition_at_spec SPACE rest) as Hp.
    destruct (partition_at SPACE rest) as [pre [post|]]; cbn [length]; [lia|].
    intros _. by destruct Hp as [-> ?].
Qed.

Lemma whisper_line_anatomy_witness :
  ∃ cmd rest,
    (cmd = lit "/w" ∨ cmd = lit "/귓속말") ∧
    lit "/w B a b" = cmd ++ SPACE :: rest ∧
    (∀ c target body, split SPACE 2 (lit "/w B a b") = [c; target; body] →
       c = cmd ∧ rest = target ++ SPACE :: body ∧ SPACE ∉ target) ∧
    (length (split SPACE 2 (lit "/w B a b")) < 3 →
       split SPACE 2 (lit "/w B a b") = [cmd; rest] ∧ SPACE ∉ rest).
Proof. apply (whisper_line_anatomy (lit "/w B a b")). vm_compute. reflexivity. Defined.

(** ** What the server keeps true *)

Lemma lstrip_id s :
  (∀ c r, s = c :: r → isspace c = false) → lstrip s = s.
Proof.
  destruct s as [|c s]; [done|]. intros H. cbn [lstrip].
  by rewrite (H c s eq_refl).
Qed.

Lemma rstrip_id s :
  (∀ c, last s = Some c → isspace c = false) → rstrip s = s.
Proof.
  induction s as [|c s IH]; [done|]. intros H. cbn [rstrip].
  destruct s as [|c' s].
  - cbn [rstrip]. by rewrite (H c eq_refl).
  - rewrite IH by (intros x Hx; by apply H). done.
Qed.

(** [strip] is idempotent. *)
Lemma strip_idem s : strip (strip s) = strip s.
Proof.
  destruct (strip_trimmed s) as [Hh Hl]. unfold strip at 1.
  rewrite (lstrip_id (strip s)) by exact Hh. by apply rstrip_id.
Qed.

Lemma sublist_keys (d d' : dict) k :
  d' `sublist_of` d → k ∈ keys d' → k ∈ keys d.
Proof.
  intros Hsub Hin. eapply elem_of_sublist; [exact Hin|].
  unfold keys. by apply fmap_sublist.
Qed.

Lemma sublist_wf (d d' : dict) : d' `sublist_of` d → wf d → wf d'.
Proof.
  intros Hsub Hwf. eapply sublist_NoDup; [exact Hwf|].
  by apply fmap_sublist.
Qed.

Lemma elem_get k v (d : dict) : wf d → (k, v) ∈ d → get k d = Some v.
Proof.
  unfold wf, keys. induction d as [|[k' v'] d IH]; [by intros _ ?%elem_of_nil|].
  rewrite fmap_cons. intros [Hk Hd]%NoDup_cons [[= -> ->]|Hin]%elem_of_cons;
    cbn [get].
  - by rewrite decide_True.
  - rewrite decide_False; [by apply IH|]. intros ->. apply Hk.
    apply list_elem_of_fmap. by exists (k', v).
Qed.

Lemma sublist_get (d d' : dict) k v :
  d' `sublist_of` d → wf d → get k d' = Some v → get k d = Some v.
Proof.
  intros Hsub Hwf Hg. apply elem_get; [done|].
  eapply elem_of_sublist; [by apply get_Some_elem|done].
Qed.

Lemma remove_sublist k (d : dict) : remove k d `sublist_of` d.
Proof.
  induction d as [|[k' v] d IH]; [done|]. cbn [remove].
  case_decide; [by apply sublist_cons|by apply sublist_skip].
Qed.

Lemma shrinks_refl s w : shrinks s w w.
Proof. split_and!; [done|done|]. intros k ?. by left. Qed.

Lemma shrinks_trans s w1 w2 w3 :
  shrinks s w1 w2 → shrinks s w2 w3 → shrinks s w1 w3.
Proof.
  intros (Hf1 & Hs1 & Hc1) (Hf2 & Hs2 & Hc2). split_and!.
  - congruence.
  - by etrans.
  - intros k Hk. destruct (Hc2 k Hk) as [Hk2|[Hout Hwho]].
    + destruct (Hc1 k Hk2) as [?|[Hout Hwho]]; [by left|].
      right. split; [|done]. intros Hin. apply Hout.
      by eapply sublist_keys.
    + right. split; [done|]. destruct Hwho as [?|Hin]; [by left|].
      right. by eapply sublist_keys.
Qed.

Lemma broadcast_shrinks s text w :
  wf (clients w) → shrinks s w (st (_broadcast text w)).
Proof.
  intros Hwf. split_and!.
  - by rewrite broadcast_run.
  - rewrite clients_broadcast by done. apply sublist_filter.
  - intros k Hk. rewrite keys_broadcast by done.
    rewrite broadcast_run in Hk. cbn [st closed] in Hk.
    apply elem_of_union in Hk as [Hk|Hk]; [|by left].
    apply elem_of_list_to_set in Hk. unfold dead_of in Hk.
    apply list_elem_of_filter in Hk as [Hnw Hin].
    right. split; [tauto|by right].
Qed.

Lemma departed_shrinks s w : wf (clients w) → shrinks s w (departed s w).
Proof.
  intros Hwf. split_and!; [done|apply remove_sublist|].
  intros k [->%elem_of_singleton|Hk]%elem_of_union; [|by left].
  right. split; [by apply not_in_remove|by left].
Qed.

Lemma close_shrinks s w :
  s ∉ keys (clients w) →
  shrinks s w (World (clients w) (peer_fault w) ({[s]} ∪ closed w)).
Proof.
  intros Hs. split_and!; [done|done|]. cbn [closed clients].
  intros k [->%elem_of_singleton|Hk]%elem_of_union; [|by left].
  right. split; [done|by left].
Qed.

Lemma finally_shrinks s nickname w :
  wf (clients w) → shrinks s w (st (finally_block s nickname w)).
Proof.
  intros Hwf. rewrite finally_block_run. unfold prepend. cbn [st].
  destruct (default nickname (get s (clients w))) as [|c n].
  - by apply departed_shrinks.
  - rewrite broadcast_system_run. cbn [st].
    eapply shrinks_trans; [by apply departed_shrinks|].
    apply broadcast_shrinks. by apply wf_remove.
Qed.

Lemma world_ok_shrinks s w w' : world_ok w → shrinks s w w' → world_ok w'.
Proof.
  intros (Hwf & Hcl & Hn) (_ & Hsub & Hc). split_and!.
  - by eapply sublist_wf.
  - intros k Hk. destruct (Hc k Hk) as [Hk'|[? _]]; [|done].
    intros Hin. apply (Hcl k Hk'). by eapply sublist_keys.
  - intros k v Hg. apply (Hn k v). by eapply sublist_get.
Qed.

Lemma world_ok_registered s n w :
  world_ok w → s ∉ closed w → trimmed n → world_ok (registered s n w).
Proof.
  intros (Hwf & Hcl & Hn) Hs Ht. split_and!.
  - by apply wf_set.
  - intros k Hk. rewrite keys_registered. intros [Hin| ->]; [|done].
    by apply (Hcl k).
  - intros k v. cbn [registered set_clients clients]. rewrite get_set.
    case_decide; [by intros [= <-]|apply Hn].
Qed.

(** The world the first read leaves: the connection registered and the join
    broadcast, or nothing changed but, on an empty nickname, the socket
    closed. *)
Lemma read_nickname_world s r w :
  (∃ n, trimmed n ∧ res (read_nickname s r w) = Ok (Active n) ∧
        st (read_nickname s r w) =
          st (_broadcast (joined_text n) (registered s n w))) ∨
  ((∀ ph, res (read_nickname s r w) = Ok ph → ph = Closed) ∧
   (st (read_nickname s r w) = w ∨
    st (read_nickname s r w) =
      World (clients w) (peer_fault w) ({[s]} ∪ closed w))).
Proof.
  destruct r as [data|e]; [|right; split; [done|by left]].
  destruct (strip data) as [|c nick] eqn:Hn.
  - right. rewrite read_nickname_empty by done. cbn [res st].
    split; [by intros ? [= <-]|by right].
  - left. exists (strip data).
    rewrite read_nickname_join by (rewrite Hn; done). cbn [prepend res st].
    split_and!; [|done|done]. split; [by rewrite Hn|apply strip_idem].
Qed.

(** What one step of a worker does to the world. *)
Lemma step_world ph s r w :
  world_ok w → ph ≠ Closed →
  (ph = AwaitingNickname → (s ∉ keys (clients w)) ∧ (s ∉ closed w)) →
  let o := _handle_client_step ph s r w in
  world_ok (st o) ∧
  peer_fault (st o) = peer_fault w ∧
  (∀ k, k ∈ closed (st o) → k ∈ closed w ∨ k = s ∨ k ∈ keys (clients w)) ∧
  (∀ k v, get k (clients (st o)) = Some v →
     get k (clients w) = Some v ∨
     (k = s ∧ ph = AwaitingNickname ∧ phase_of o = Active v)) ∧
  (∀ v, phase_of o = Active v → trimmed v ∨ ph = Active v) ∧
  phase_of o ≠ AwaitingNickname.
Proof.
  intros Hok Hph Hfresh. cbn zeta. pose proof Hok as (Hwf & Hcl & Hn).
  assert (Hfrom_shrinks : ∀ w', shrinks s w w' →
    world_ok w' ∧ peer_fault w' = peer_fault w ∧
    (∀ k, k ∈ closed w' → k ∈ closed w ∨ k = s ∨ k ∈ keys (clients w)) ∧
    (∀ k v, get k (clients w') = Some v → get k (clients w) = Some v)).
  { intros w' Hsh. pose proof Hsh as (Hf & Hsub & Hc). split_and!.
    - by eapply world_ok_shrinks.
    - done.
    - intros k Hk. destruct (Hc k Hk) as [?|[_ [?|?]]]; tauto.
    - intros k v. by apply sublist_get. }
  destruct ph as [|nick|]; [| |done]; cbn [_handle_client_step].
  - destruct (Hfresh eq_refl) as [Hs Hsc].
    destruct (guarded_cases_body s [] (read_nickname s r) w)
      as [(ph & Hnc & Hr & ->)|(Hb & Hc & Hst)].
    + destruct (read_nickname_world s r w)
        as [(n & Ht & Hres & Hst)|(Hclosed & _)];
        [|by destruct (Hnc (Hclosed _ Hr))].
      unfold phase_of. rewrite Hres, Hst.
      assert (Hok1 : world_ok (registered s n w))
        by (by apply world_ok_registered).
      pose proof (broadcast_shrinks s (joined_text n) (registered s n w)
                    (proj1 Hok1)) as Hsh.
      pose proof Hsh as (Hf & Hsub & Hcc).
      split_and!.
      * by eapply world_ok_shrinks.
      * done.
      * intros k Hk. destruct (Hcc k Hk) as [?|[_ [?|Hin]]]; [tauto|tauto|].
        apply keys_registered in Hin. tauto.
      * intros k v Hg. apply (sublist_get _ _ _ _ Hsub (proj1 Hok1)) in Hg.
        cbn [registered set_clients clients] in Hg. rewrite get_set in Hg.
        case_decide as Hk; [|by left]. injection Hg as <-. by right.
      * intros v [= <-]. by left.
      * done.
    + rewrite Hst, Hc.
      assert (Hsh : shrinks s w (st (finally_block s [] (st (read_nickname s r w))))).
      { destruct (read_nickname_world s r w)
          as [(n & _ & Hres & _)|(_ & [->| ->])].
        - by apply Hb in Hres.
        - by apply finally_shrinks.
        - eapply shrinks_trans; [by apply close_shrinks|].
          by apply finally_shrinks. }
      destruct (Hfrom_shrinks _ Hsh) as (H1 & H2 & H3 & H4).
      split_and!; [done|done|done| |done|done].
      intros k v Hg. left. by apply H4.
  - destruct (guarded_cases_body s nick (loop_body nick s r) w)
      as [(ph & Hnc & Hr & ->)|(Hb & Hc & Hst)].
    + unfold phase_of. rewrite Hr.
      apply loop_body_res in Hr as [->| ->]; [done|].
      assert (Hsh : shrinks s w (st (loop_body nick s r w))).
      { destruct (loop_body_st nick s r w) as [->|[text ->]].
        - apply shrinks_refl.
        - by apply broadcast_shrinks. }
      destruct (Hfrom_shrinks _ Hsh) as (H1 & H2 & H3 & H4).
      split_and!; [done|done|done| | |done].
      * intros k v Hg. left. by apply H4.
      * intros v [= <-]. by right.
    + rewrite Hst, Hc.
      assert (Hw : st (loop_body nick s r w) = w).
      { destruct (loop_body_st nick s r w) as [->|[text Hbody]]; [done|].
        rewrite Hbody in Hb. by specialize (Hb _ eq_refl). }
      rewrite Hw.
      destruct (Hfrom_shrinks _ (finally_shrinks s nick w Hwf))
        as (H1 & H2 & H3 & H4).
      split_and!; [done|done|done| |done|done].
      intros k v Hg. left. by apply H4.
Qed.

Lemma server_sound_init : server_sound init.
Proof.
  split_and!; [done| |done|done|].
  - split_and!; [apply NoDup_nil_2| |done].
    intros k Hk. by apply elem_of_empty in Hk.
  - intros s Hs. by apply elem_of_empty in Hs.
Qed.

Lemma server_sound_step σ l σ' :
  server_sound σ → step σ l = Some σ' → server_sound σ'.
Proof.
  intros (Hfresh & Hok & Hreg & Hnick & Hclosed) Hstep.
  destruct l as [|s r|s e]; cbn [step] in Hstep.
  - injection Hstep as <-. split_and!; cbn [next_sock workers srv].
    + intros s Hs. rewrite lookup_insert_ne by lia. apply Hfresh. lia.
    + done.
    + intros s v Hg. rewrite lookup_insert_ne; [by apply Hreg|].
      intros <-. apply Hreg in Hg. rewrite Hfresh in Hg by lia. done.
    + intros s nick. destruct (decide (s = next_sock σ)) as [->|Hne].
      * rewrite lookup_insert_eq. done.
      * rewrite lookup_insert_ne by done. apply Hnick.
    + intros s Hs. destruct (Hclosed s Hs) as (ph & Hw & Hph). exists ph.
      split; [|done]. rewrite lookup_insert_ne; [done|].
      intros <-. rewrite Hfresh in Hw by lia. done.
  - destruct (workers σ !! s) as [ph|] eqn:Hph; [|done].
    assert (Hnc : ph ≠ Closed) by (intros ->; done).
    assert (Hsome : Some σ' =
      Some (System (st (_handle_client_step ph s r (srv σ))) (next_sock σ)
              (<[s := phase_of (_handle_client_step ph s r (srv σ))]> (workers σ))
              (log σ ++ (pair s <$> evs (_handle_client_step ph s r (srv σ))))))
      by (rewrite <- Hstep; by destruct ph).
    injection Hsome as ->. clear Hstep.
    assert (Hawait : ph = AwaitingNickname →
              (s ∉ keys (clients (srv σ))) ∧ (s ∉ closed (srv σ))).
    { intros ->. split.
      - intros Hin. destruct (get s (clients (srv σ))) as [v|] eqn:Hg;
          [|by apply get_None in Hg].
        apply Hreg in Hg. congruence.
      - intros Hin. destruct (Hclosed s Hin) as (ph & Hw & Hne). congruence. }
    destruct (step_world ph s r (srv σ) Hok Hnc Hawait)
      as (Hok' & _ & Hcl' & Hget' & Hact' & Hna').
    split_and!; cbn [next_sock workers srv].
    + intros s' Hs'. destruct (decide (s' = s)) as [->|Hne].
      * rewrite Hfresh in Hph by done. done.
      * rewrite lookup_insert_ne by done. by apply Hfresh.
    + done.
    + intros k v Hg. destruct (Hget' k v Hg) as [Hold|(-> & -> & Hp)].
      * destruct (decide (k = s)) as [->|Hne].
        -- rewrite lookup_insert_eq. apply Hreg in Hold.
           rewrite Hph in Hold. injection Hold as ->.
           destruct (phase_of _) as [|v'|] eqn:Hp; [done| |].
           ++ destruct (Hact' v' eq_refl) as [_|[= ->]]; [|done].
              (* the worker was Active v and stays Active *)
              assert (Hstay : phase_of (_handle_client_step (Active v) s r (srv σ))
                              = Active v ∨
                              phase_of (_handle_client_step (Active v) s r (srv σ))
                              = Closed).
              { cbn [_handle_client_step].
                destruct (guarded_cases_body s v (loop_body v s r) (srv σ))
                  as [(ph & Hn & Hr & ->)|(_ & Hc & _)]; [|by right].
                unfold phase_of. rewrite Hr.
                apply loop_body_res in Hr as [->| ->]; [done|by left]. }
              rewrite Hp in Hstay. destruct Hstay as [[= ->]|?]; done.
           ++ exfalso.
              destruct (step_registry (Active v) s r (srv σ) (proj1 Hok) Hnc)
                as (_ & _ & Hout & _).
              apply (Hout Hp). destruct (decide (s ∈ keys (clients
                (st (_handle_client_step (Active v) s r (srv σ)))))) as [|Hn];
                [done|]. apply get_None in Hn. congruence.
        -- rewrite lookup_insert_ne by done. by apply Hreg.
      * rewrite lookup_insert_eq. by rewrite Hp.
    + intros s' nick. destruct (decide (s' = s)) as [->|Hne].
      * rewrite lookup_insert_eq. intros [= Hp].
        destruct (Hact' nick Hp) as [?| ->]; [done|]. by eapply Hnick.
      * rewrite lookup_insert_ne by done. apply Hnick.
    + intros k Hk. destruct (decide (k = s)) as [->|Hne].
      * rewrite lookup_insert_eq. eexists. split; [done|]. exact Hna'.
      * rewrite lookup_insert_ne by done.
        destruct (Hcl' k Hk) as [Hold|[?|Hin]]; [by apply Hclosed|done|].
        destruct (get k (clients (srv σ))) as [v|] eqn:Hg;
          [|by apply get_None in Hg].
        apply Hreg in Hg. by exists (Active v).
  - destruct (workers σ !! s); [|done]. injection Hstep as <-.
    split_and!; done.
Qed.

Lemma reachable_server_sound σ : reachable σ → server_sound σ.
Proof.
  intros [ls Hrun].
  eapply (run_invariant server_sound);
    [apply server_sound_step|apply server_sound_init|exact Hrun].
Qed.

Lemma one_session_reachable : reachable one_session.
Proof.
  exists [LAccept; LRecv 0 (RecvText (lit " A "))]. vm_compute. reflexivity.
Defined.

(** X8. In every reachable state of the server the registry and the workers
    agree: each connection is registered at most once, and an entry for a
    connection under a nickname means that the worker of that connection is
    in its message loop with that very nickname, which is not empty and has
    no whitespace at either end. *)
Theorem registry_agrees_with_workers σ s nick :
  reachable σ →
  get s (clients (srv σ)) = Some nick →
  wf (clients (srv σ)) ∧
  workers σ !! s = Some (Active nick) ∧
  nick ≠ [] ∧ strip nick = nick ∧
  s < next_sock σ.
Proof.
  intros Hr Hg.
  destruct (reachable_server_sound σ Hr) as (Hfresh & Hok & Hreg & Hnick & _).
  destruct Hok as (Hwf & _ & Htrim). destruct (Htrim s nick Hg) as [Hne Hs].
  split_and!; [done|by apply Hreg|done|done|].
  destruct (decide (s < next_sock σ)) as [|Hge]; [done|].
  apply Hreg in Hg. rewrite Hfresh in Hg by lia. done.
Qed.

Lemma registry_agrees_with_workers_witness :
  wf (clients (srv one_session)) ∧
  workers one_session !! 0 = Some (Active (lit "A")) ∧
  lit "A" ≠ [] ∧ strip (lit "A") = lit "A" ∧
  0 < next_sock one_session.
Proof.
  apply (registry_agrees_with_workers one_session 0 (lit "A")).
  - exact one_session_reachable.
  - vm_compute. reflexivity.
Defined.

(** X9. In every reachable state no closed socket is in the registry: a
    socket is popped before, or when, it is closed.  So a write to a
    registered connection can fail only because its peer is gone, and the
    socket of a worker still waiting for its nickname is open. *)
Theorem registry_holds_no_closed_socket σ :
  reachable σ →
  (∀ s, s ∈ keys (clients (srv σ)) →
        (s ∉ closed (srv σ)) ∧
        send_fault (srv σ) s = peer_fault (srv σ) !! s) ∧
  (∀ s, workers σ !! s = Some AwaitingNickname → s ∉ closed (srv σ)).
Proof.
  intros Hr.
  destruct (reachable_server_sound σ Hr) as (_ & Hok & _ & _ & Hclosed).
  destruct Hok as (_ & Hcl & _). split.
  - intros s Hin.
    assert (Hs : s ∉ closed (srv σ)) by (intros Hc; by apply (Hcl s Hc)).
    split; [done|]. unfold send_fault. by rewrite decide_False.
  - intros s Hw Hc. destruct (Hclosed s Hc) as (ph & Hph & Hne). congruence.
Qed.

Lemma registry_holds_no_closed_socket_witness :
  (∀ s, s ∈ keys (clients (srv one_session)) →
        (s ∉ closed (srv one_session)) ∧
        send_fault (srv one_session) s = peer_fault (srv one_session) !! s) ∧
  (∀ s, workers one_session !! s = Some AwaitingNickname →
        s ∉ closed (srv one_session)).
Proof.
  apply (registry_holds_no_closed_socket one_session).
  exact one_session_reachable.
Defined.



(** ** How a session ends *)

Lemma keys_remove k s (d : dict) :
  wf d → k ∈ keys (remove s d) ↔ k ∈ keys d ∧ k ≠ s.
Proof.
  intros Hwf. rewrite remove_filter by done. unfold keys.
  rewrite !list_elem_of_fmap. split.
  - intros ([k' v] & -> & [Hne Hin]%list_elem_of_filter).
    split; [by exists (k', v)|done].
  - intros [([k' v] & -> & Hin) Hne]. exists (k', v). split; [done|].
    by apply list_elem_of_filter.
Qed.

Lemma get_remove_ne k s (d : dict) : k ≠ s → get k (remove s d) = get k d.
Proof.
  intros Hne. induction d as [|[k' v] d IH]; [done|]. cbn [remove get].
  destruct (decide (s = k')) as [->|Hs].
  - by rewrite decide_False.
  - cbn [get]. case_decide; [done|apply IH].
Qed.

Lemma send_fault_departed s w r :
  r ≠ s → send_fault (departed s w) r = send_fault w r.
Proof.
  intros Hne. rewrite <- (send_fault_closed_other w s r Hne). reflexivity.
Qed.

(** What the [finally] block writes: the departure notice, once, to every
    other registered connection that can be written to, and nothing to the
    connection that leaves. *)
Lemma received_finally s nickname w r :
  wf (clients w) →
  received r (evs (finally_block s nickname w)) =
    if decide (default nickname (get s (clients w)) ≠ [] ∧ r ≠ s ∧
               r ∈ keys (clients w) ∧ writable w r)
    then [frame (left_text (default nickname (get s (clients w))))] else [].
Proof.
  intros Hwf. rewrite finally_block_run. unfold prepend. cbn [evs].
  rewrite received_app. cbn [received app].
  destruct (default nickname (get s (clients w))) as [|c n] eqn:Hn.
  - cbn. rewrite decide_False; [done|]. intros [? _]. done.
  - rewrite broadcast_system_run. cbn [evs received].
    rewrite received_broadcast by (by apply wf_remove).
    apply decide_ext. cbn [departed clients]. rewrite keys_remove by done.
    assert (c :: n ≠ []) by done.
    destruct (decide (r = s)) as [->|Hne]; [intuition congruence|].
    unfold writable. rewrite send_fault_departed by done. tauto.
Qed.

Lemma closed_finally s nickname w :
  s ∈ closed (st (finally_block s nickname w)).
Proof.
  rewrite finally_block_run. unfold prepend. cbn [st].
  assert (Hs : s ∈ closed (departed s w))
    by (apply elem_of_union; left; by apply elem_of_singleton).
  destruct (default nickname (get s (clients w))); [done|].
  rewrite broadcast_system_run, broadcast_run. cbn [st closed].
  apply elem_of_union. by right.
Qed.

Lemma get_finally s nickname w r :
  wf (clients w) → r ≠ s → writable w r →
  get r (clients (st (finally_block s nickname w))) = get r (clients w).
Proof.
  intros Hwf Hne Hr. rewrite finally_block_run. unfold prepend. cbn [st].
  destruct (default nickname (get s (clients w))).
  - cbn [departed clients mret M_ret ret st]. by apply get_remove_ne.
  - rewrite broadcast_system_run. cbn [st].
    rewrite clients_broadcast by (by apply wf_remove).
    rewrite (get_filter (λ k, writable (departed s w) k)).
    rewrite decide_True
      by (unfold writable; by rewrite send_fault_departed).
    by apply get_remove_ne.
Qed.

(** A worker in its message loop whose turn ends the loop, by [break] or by
    an exception, runs the [finally] block in the world the turn left. *)
Lemma step_active_ends nick s r w rb tr :
  loop_body nick s r w = Out rb w tr →
  (rb = Ok Closed ∨ ∃ e, rb = Raise e) →
  _handle_client_step (Active nick) s r w =
    Out (match rb with
         | Raise e => if caught e then Ok Closed else Raise e
         | _ => Ok Closed
         end)
      (st (finally_block s nick w))
      (tr ++ evs (finally_block s nick w)).
Proof.
  intros Hb [->|[e ->]]; cbn [_handle_client_step].
  - by rewrite (guarded_leave _ _ _ _ _ _ Hb).
  - by rewrite (guarded_raise _ _ _ _ _ _ _ Hb).
Qed.



(** X12. A stream closed by the peer and a read that raises end a session in
    the same way: the same [finally] block runs in the same world, so the
    connection is removed and closed and its departure, under the nickname
    the worker holds, is announced once to every other registered connection
    that can be written to.  The difference is the result only: a reset or
    aborted connection is swallowed, any other exception is raised again
    after the cleanup. *)
Theorem read_failure_cleans_up nick s e w :
  wf (clients w) →
  (get s (clients w) = Some nick ∨ s ∉ keys (clients w)) → nick ≠ [] →
  let eof := _handle_client_step (Active nick) s (RecvText []) w in
  let err := _handle_client_step (Active nick) s (RecvRaise e) w in
  res eof = Ok Closed ∧
  res err = (if caught e then Ok Closed else Raise e) ∧
  st err = st eof ∧ evs err = evs eof ∧
  (∀ r, received r (evs eof) =
          if decide (r ≠ s ∧ r ∈ keys (clients w) ∧ writable w r)
          then [frame (left_text nick)] else []) ∧
  count_departures (evs eof) = 1 ∧
  (s ∉ keys (clients (st eof))) ∧ s ∈ closed (st eof).
Proof.
  intros Hwf Hg Hn eof err. subst eof err.
  rewrite (step_active_ends nick s (RecvText []) w (Ok Closed) [])
    by (done || by left).
  rewrite (step_active_ends nick s (RecvRaise e) w (Raise e) [])
    by (done || (right; by exists e)).
  cbn [res st evs app].
  assert (Hd : default nick (get s (clients w)) = nick).
  { destruct Hg as [->|Hout]; [done|]. apply get_None in Hout. by rewrite Hout. }
  split_and!; [done|done|done|done| | | |].
  - intros r. rewrite received_finally by done. rewrite Hd.
    apply decide_ext. tauto.
  - apply count_departures_finally_announced. by rewrite Hd.
  - by apply clients_finally.
  - apply closed_finally.
Qed.

Lemma read_failure_cleans_up_witness :
  let eof := _handle_client_step (Active (lit "B")) 1 (RecvText []) three_sessions in
  let err := _handle_client_step (Active (lit "B")) 1 (RecvRaise OSError)
               three_sessions in
  res eof = Ok Closed ∧
  res err = (if caught OSError then Ok Closed else Raise OSError) ∧
  st err = st eof ∧ evs err = evs eof ∧
  (∀ r, received r (evs eof) =
          if decide (r ≠ 1 ∧ r ∈ keys (clients three_sessions) ∧
                     writable three_sessions r)
          then [frame (left_text (lit "B"))] else []) ∧
  count_departures (evs eof) = 1 ∧
  (1 ∉ keys (clients (st eof))) ∧ 1 ∈ closed (st eof).
Proof.
  apply (read_failure_cleans_up (lit "B") 1 OSError three_sessions).
  - exact three_sessions_wf.
  - left. vm_compute. reflexivity.
  - vm_compute. discriminate.
Defined.

(** X13. A whisper to a connection whose write raises ends the sender's own
    session: the exception leaves the message loop, so the sender gets no
    confirmation and no error notice, is removed from the registry and
    closed, and its departure is announced; that announcement is a broadcast,
    which then evicts the target too.  A reset or aborted connection is
    swallowed, any other exception ends the worker thread. *)
Theorem whisper_to_dead_peer_ends_sender nick s data cmd target body t e w :
  wf (clients w) →
  get s (clients w) = Some nick → nick ≠ [] →
  data ≠ [] → is_whisper (strip data) = true →
  split SPACE 2 (strip data) = [cmd; target; body] →
  find_nick target (clients w) = Some t →
  send_fault w t = Some e →
  let o := _handle_client_step (Active nick) s (RecvText data) w in
  res o = (if caught e then Ok Closed else Raise e) ∧
  received s (evs o) = [] ∧
  received t (evs o) = [] ∧
  (s ∉ keys (clients (st o))) ∧ s ∈ closed (st o) ∧
  (t ∉ keys (clients (st o))) ∧
  count_departures (evs o) = 1.
Proof.
  intros Hwf Hg Hn Hd Hw Hparts Hfind He o. subst o.
  assert (Hb : loop_body nick s (RecvText data) w =
               Out (Raise e) w
                 [EvAcquire; EvRelease;
                  EvSendFailed t (frame (whisper_text nick body)) e]).
  { rewrite loop_body_whisper by done.
    erewrite run_bind_raise; [reflexivity|].
    rewrite (handle_whisper_deliver _ _ _ _ _ _ _ Hparts). unfold whisper.
    erewrite run_bind_ok by apply find_socket_run. rewrite Hfind.
    erewrite run_bind_raise by (by apply send_text_raise). reflexivity. }
  rewrite (step_active_ends _ _ _ _ _ _ Hb) by (right; by exists e).
  cbn [res st evs].
  assert (Hdn : default nick (get s (clients w)) = nick) by (by rewrite Hg).
  assert (Htw : ¬ writable w t) by (unfold writable; congruence).
  split_and!.
  - done.
  - cbn [app received]. rewrite received_finally by done.
    rewrite decide_False; [done|]. tauto.
  - cbn [app received]. rewrite received_finally by done.
    rewrite decide_False; [done|]. tauto.
  - by apply clients_finally.
  - apply closed_finally.
  - rewrite finally_block_run. unfold prepend. cbn [st]. rewrite Hdn.
    destruct nick as [|c n]; [done|].
    rewrite broadcast_system_run. cbn [st].
    rewrite keys_broadcast by (by apply wf_remove).
    intros [Hin Hwr]. destruct (decide (t = s)) as [->|Hne].
    + by apply (not_in_remove s (clients w)).
    + apply Htw. revert Hwr. unfold writable.
      by rewrite send_fault_departed.
  - rewrite count_departures_app.
    destruct (count_departures_finally_announced s nick w) as [-> _];
      [by rewrite Hdn|].
    reflexivity.
Qed.

Lemma whisper_to_dead_peer_ends_sender_witness :
  let o := _handle_client_step (Active (lit "A")) 0 (RecvText (lit "/w B hi"))
             b_gone in
  res o = (if caught BrokenPipeError then Ok Closed else Raise BrokenPipeError) ∧
  received 0 (evs o) = [] ∧
  received 1 (evs o) = [] ∧
  (0 ∉ keys (clients (st o))) ∧ 0 ∈ closed (st o) ∧
  (1 ∉ keys (clients (st o))) ∧
  count_departures (evs o) = 1.
Proof.
  apply (whisper_to_dead_peer_ends_sender (lit "A") 0 (lit "/w B hi")
           (lit "/w") (lit "B") (lit "hi") 1 BrokenPipeError b_gone).
  - exact b_gone_wf.
  - vm_compute. reflexivity.
  - vm_compute. discriminate.
  - vm_compute. discriminate.
  - vm_compute. reflexivity.
  - vm_compute. reflexivity.
  - vm_compute. reflexivity.
  - vm_compute. reflexivity.
Defined.

(** ** Broadcast, again *)

Lemma deliveries_send w text (l : list sock) :
  deliveries (send_event w text <$> l) =
    (λ s, (s, frame text)) <$> filter (λ s, writable w s) l.
Proof.
  induction l as [|s l IH]; [done|].
  rewrite fmap_cons, filter_cons. unfold send_event at 1.
  destruct (decide (writable w s)) as [Hw|Hw].
  - rewrite Hw. cbn [deliveries]. by rewrite IH.
  - destruct (send_fault w s) eqn:E; [|done]. cbn [deliveries]. exact IH.
Qed.

Lemma writable_after_broadcast text w s :
  s ∈ keys (clients w) → writable w s →
  writable (st (_broadcast text w)) s.
Proof.
  intros Hin Hw. unfold writable, send_fault in *.
  rewrite broadcast_run. cbn [st closed peer_fault].
  destruct (decide (s ∈ closed w)) as [|Hc]; [done|].
  rewrite decide_False; [done|].
  rewrite elem_of_union, elem_of_list_to_set. unfold dead_of.
  rewrite list_elem_of_filter. unfold writable, send_fault.
  rewrite (decide_False (P := s ∈ closed w)) by done. tauto.
Qed.

Lemma filter_all {X} (P : X → Prop) `{∀ x, Decision (P x)} (l : list X) :
  (∀ x, x ∈ l → P x) → filter P l = l.
Proof.
  induction l as [|x l IH]; [done|]. intros H'.
  rewrite filter_cons_True by (apply H'; left).
  rewrite IH; [done|]. intros y Hy. apply H'. by right.
Qed.

Lemma filter_none {X} (P : X → Prop) `{∀ x, Decision (P x)} (l : list X) :
  (∀ x, x ∈ l → ¬ P x) → filter P l = [].
Proof.
  induction l as [|x l IH]; [done|]. intros H'.
  rewrite filter_cons_False by (apply H'; left).
  apply IH. intros y Hy. apply H'. by right.
Qed.

Lemma broadcast_all_writable text w :
  (∀ s, s ∈ keys (clients w) → writable w s) →
  _broadcast text w =
    Out (Ok tt) w
      (EvAcquire :: ((λ s, EvSent s (frame text)) <$> keys (clients w))
         ++ [EvRelease]).
Proof.
  intros Hall. rewrite broadcast_run.
  assert (Hdead : dead_of w = []).
  { unfold dead_of. apply filter_none. intros s Hs Hn. by apply Hn, Hall. }
  rewrite Hdead. destruct w as [c f cl]. cbn [clients peer_fault closed fmap
    list_fmap app remove_all foldl list_to_set].
  rewrite (left_id_L ∅ (∪)). do 3 f_equal.
  apply list_fmap_ext. intros i s Hi. unfold send_event.
  assert (Hs : s ∈ keys (clients (World c f cl)))
    by (by eapply list_elem_of_lookup_2).
  by rewrite (Hall s Hs).
Qed.

(** X14. What a broadcast delivers and what it leaves.  The text goes, in
    registration order, once to each registered connection that can be
    written to.  The registry afterwards is the old one without the
    connections whose write failed, in the same order; every connection left
    in it can be written to, so a second broadcast reaches all of them and
    changes nothing; and when every write succeeds the first broadcast
    changes nothing either. *)
Theorem broadcast_settles_registry text w :
  wf (clients w) →
  let w' := st (_broadcast text w) in
  deliveries (evs (_broadcast text w)) =
    (λ s, (s, frame text)) <$> filter (λ s, writable w s) (keys (clients w)) ∧
  clients w' = filter (λ kv, writable w kv.1) (clients w) ∧
  (∀ s, s ∈ keys (clients w') → writable w' s) ∧
  (∀ text', _broadcast text' w' =
      Out (Ok tt) w'
        (EvAcquire :: ((λ s, EvSent s (frame text')) <$> keys (clients w'))
           ++ [EvRelease])) ∧
  ((∀ s, s ∈ keys (clients w) → writable w s) → w' = w).
Proof.
  intros Hwf w'.
  assert (Hw' : ∀ s, s ∈ keys (clients w') → writable w' s).
  { intros s [Hin Hs]%keys_broadcast; [|done].
    by apply writable_after_broadcast. }
  split_and!.
  - rewrite broadcast_run. cbn [evs deliveries].
    rewrite !deliveries_app, deliveries_close. cbn [deliveries app].
    rewrite app_nil_r. apply deliveries_send.
  - by apply clients_broadcast.
  - done.
  - intros text'. by apply broadcast_all_writable.
  - intros Hall. subst w'. by rewrite broadcast_all_writable.
Qed.

Lemma broadcast_settles_registry_witness :
  let w' := st (_broadcast (lit "hi") b_gone) in
  deliveries (evs (_broadcast (lit "hi") b_gone)) =
    (λ s, (s, frame (lit "hi")))
      <$> filter (λ s, writable b_gone s) (keys (clients b_gone)) ∧
  clients w' = filter (λ kv, writable b_gone kv.1) (clients b_gone) ∧
  (∀ s, s ∈ keys (clients w') → writable w' s) ∧
  (∀ text', _broadcast text' w' =
      Out (Ok tt) w'
        (EvAcquire :: ((λ s, EvSent s (frame text')) <$> keys (clients w'))
           ++ [EvRelease])) ∧
  ((∀ s, s ∈ keys (clients b_gone) → writable b_gone s) → w' = b_gone).
Proof. apply (broadcast_settles_registry (lit "hi") b_gone). exact b_gone_wf. Defined.

(** ** The lock *)

Lemma lock_walk_app held tr1 tr2 :
  lock_walk held (tr1 ++ tr2) =
    match lock_walk held tr1 with
    | Some h => lock_walk h tr2
    | None => None
    end.
Proof.
  revert held. induction tr1 as [|ev tr1 IH]; intros held; [done|].
  destruct ev; cbn [app lock_walk]; try apply IH; destruct held; auto.
Qed.

Lemma lock_walk_send held w text (l : list sock) :
  lock_walk held (send_event w text <$> l) = Some held.
Proof.
  induction l as [|s l IH]; [done|]. rewrite fmap_cons.
  unfold send_event at 1. by destruct (send_fault w s).
Qed.

Lemma lock_walk_close held (l : list sock) :
  lock_walk held (EvClose <$> l) = Some held.
Proof. induction l as [|s l IH]; [done|]. by rewrite fmap_cons. Qed.

Lemma lock_walk_send_text s text w :
  lock_walk false (evs (_send_text s text w)) = Some false.
Proof. rewrite send_text_run. unfold send_event. by destruct (send_fault w s). Qed.

Lemma lock_walk_broadcast text w :
  lock_walk false (evs (_broadcast text w)) = Some false.
Proof.
  rewrite broadcast_run. cbn [evs lock_walk].
  rewrite lock_walk_app, lock_walk_send. cbv beta iota.
  by rewrite lock_walk_app, lock_walk_close.
Qed.

Lemma lock_walk_free_app tr1 tr2 :
  lock_walk false tr1 = Some false → lock_walk false tr2 = Some false →
  lock_walk false (tr1 ++ tr2) = Some false.
Proof. intros H1 H2. by rewrite lock_walk_app, H1. Qed.

Lemma lock_walk_whisper sender target body s w :
  lock_walk false (evs (whisper sender target body s w)) = Some false.
Proof.
  unfold whisper. rewrite evs_bind, find_socket_run. cbn [res st evs].
  apply (lock_walk_free_app [EvAcquire; EvRelease]); [done|].
  destruct (find_nick target (clients w)) as [t|];
    [|apply lock_walk_send_text].
  rewrite evs_bind. apply lock_walk_free_app; [apply lock_walk_send_text|].
  destruct (res _); [|done]. rewrite st_send_text.
  case_decide; [apply lock_walk_send_text|done].
Qed.

Lemma lock_walk_handle_whisper sender raw s w :
  lock_walk false (evs (_handle_whisper sender raw s w)) = Some false.
Proof.
  unfold _handle_whisper. case_bool_decide; [apply lock_walk_send_text|].
  destruct (split SPACE 2 raw) as [|a [|b [|c [|d l]]]]; try done.
  apply lock_walk_whisper.
Qed.

Lemma lock_walk_finally s nickname w :
  lock_walk false (evs (finally_block s nickname w)) = Some false.
Proof.
  rewrite finally_block_run. unfold prepend. cbn [evs].
  apply (lock_walk_free_app [EvAcquire; EvRelease; EvClose s]); [done|].
  destruct (default nickname (get s (clients w))); [done|].
  rewrite broadcast_system_run. cbn [evs lock_walk]. apply lock_walk_broadcast.
Qed.

Lemma lock_walk_read_nickname s r w :
  lock_walk false (evs (read_nickname s r w)) = Some false.
Proof.
  destruct r as [data|e]; [|done].
  destruct (strip data) as [|c nick] eqn:Hn.
  - by rewrite read_nickname_empty.
  - rewrite read_nickname_join by (rewrite Hn; done).
    unfold prepend. cbn [evs].
    apply (lock_walk_free_app [EvAcquire; EvRelease; EvSystem _]); [done|].
    apply lock_walk_broadcast.
Qed.

Lemma lock_walk_loop_body nick s r w :
  lock_walk false (evs (loop_body nick s r w)) = Some false.
Proof.
  destruct r as [data|e]; [|done].
  unfold loop_body, _recv_text. rewrite evs_bind.
  cbn [mret M_ret ret res st evs app].
  destruct data as [|c data]; [done|].
  case_decide.
  - rewrite evs_bind. apply lock_walk_free_app; [apply lock_walk_send_text|].
    by destruct (res _).
  - destruct (_ || _).
    + rewrite evs_bind.
      apply lock_walk_free_app; [apply lock_walk_handle_whisper|].
      by destruct (res _).
    + rewrite evs_bind. unfold _broadcast_chat.
      apply lock_walk_free_app; [apply lock_walk_broadcast|].
      by destruct (res _).
Qed.

Lemma lock_walk_step ph s r w :
  lock_walk false (evs (_handle_client_step ph s r w)) = Some false.
Proof.
  destruct ph as [|nick|]; cbn [_handle_client_step]; [| |done].
  - destruct (guarded_cases s [] (read_nickname s r) w)
      as [(ph & _ & _ & _ & ->)|(_ & _ & ->)].
    + apply lock_walk_read_nickname.
    + apply lock_walk_free_app;
        [apply lock_walk_read_nickname|apply lock_walk_finally].
  - destruct (guarded_cases s nick (loop_body nick s r) w)
      as [(ph & _ & _ & _ & ->)|(_ & _ & ->)].
    + apply lock_walk_loop_body.
    + apply lock_walk_free_app;
        [apply lock_walk_loop_body|apply lock_walk_finally].
Qed.

Lemma lock_walk_notify_each socks w :
  lock_walk true (evs (notify_each socks w)) = Some true ∧
  res (notify_each socks w) = Ok tt.
Proof.
  revert w. induction socks as [|s socks IH]; intros w; [done|].
  cbn [notify_each].
  assert (Hsend : try_except (_send_text s SHUTDOWN) (λ _, mret tt) w =
                  Out (Ok tt) w [send_event w SHUTDOWN s]).
  { unfold try_except. rewrite send_text_run.
    destruct (send_fault w s); msimpl; by rewrite ?app_nil_r. }
  erewrite run_bind_ok by exact Hsend.
  erewrite run_bind_ok by reflexivity.
  unfold prepend. cbn [evs res]. destruct (IH (st (close s w))) as [Hl Hr].
  split; [|done]. cbn [app]. unfold send_event.
  destruct (send_fault w s); cbn [lock_walk]; exact Hl.
Qed.

(** X15. The registry lock is never taken while it is held and is always
    given back: in the events of every step of a worker, of every whole run
    of [_handle_client] and of [_shutdown], acquisitions and releases
    alternate, starting and ending with the lock free, whatever the reads
    yield and whichever writes fail. *)
Theorem lock_never_nested :
  (∀ ph s r w, lock_walk false (evs (_handle_client_step ph s r w)) = Some false) ∧
  (∀ s script w, lock_walk false (_handle_client s script w).2 = Some false) ∧
  (∀ sv, lock_walk false (_shutdown sv).2 = Some false).
Proof.
  split_and!.
  - apply lock_walk_step.
  - intros s script w. unfold _handle_client. generalize AwaitingNickname.
    revert w. induction script as [|r script IH]; intros w ph; [done|].
    assert (ph = Closed ∨ ph ≠ Closed) as [->|Hph]
      by (destruct ph; [right|right|left]; done); [done|].
    assert (_handle_client_from ph s (r :: script) w =
      let o := _handle_client_step ph s r w in
      let '(ph', w', tr) := _handle_client_from (phase_of o) s script (st o) in
      (ph', w', evs o ++ tr)) as -> by (by destruct ph).
    cbn zeta.
    specialize (IH (st (_handle_client_step ph s r w))
                   (phase_of (_handle_client_step ph s r w))).
    destruct (_handle_client_from _ _ _ _) as [[ph' w'] tr]. cbn [snd] in *.
    apply lock_walk_free_app; [apply lock_walk_step|done].
  - intros sv. unfold _shutdown, shutdown_clients.
    destruct (lock_walk_notify_each (keys (clients (core sv))) (core sv))
      as [Hl Hr].
    unfold with_lock. erewrite run_bind_ok by reflexivity.
    unfold prepend at 1. cbn [app].
    destruct (notify_each _ _) as [rn wn trn] eqn:Hn. cbn [res evs] in Hl, Hr.
    subst rn. erewrite run_bind_ok by exact Hn. msimpl. cbn [snd lock_walk].
    rewrite app_nil_r, lock_walk_app, Hl. done.
Qed.

(** ** Whole sessions *)

Lemma step_join s data w :
  strip data ≠ [] →
  _handle_client_step AwaitingNickname s (RecvText data) w =
    Out (Ok (Active (strip data)))
      (st (_broadcast (joined_text (strip data)) (registered s (strip data) w)))
      ([EvAcquire; EvRelease; EvSystem (strip data ++ JOINED)]
         ++ evs (_broadcast (joined_text (strip data))
                   (registered s (strip data) w))).
Proof.
  intros Hn. cbn [_handle_client_step].
  erewrite guarded_stay; [|by apply read_nickname_join|done]. reflexivity.
Qed.

Lemma step_ends_on_failure ph s r w :
  ph ≠ Closed →
  (r = RecvText [] ∨ ∃ e, r = RecvRaise e) →
  phase_of (_handle_client_step ph s r w) = Closed.
Proof.
  intros Hph Hr. destruct ph as [|nick|]; [| |done]; cbn [_handle_client_step].
  - destruct (guarded_cases_body s [] (read_nickname s r) w)
      as [(ph & Hnc & Hres & _)|(_ & Hc & _)]; [|done].
    exfalso. destruct Hr as [->|[e ->]]; [|done].
    rewrite read_nickname_empty in Hres by done. cbn [res] in Hres.
    by injection Hres as <-.
  - destruct (guarded_cases_body s nick (loop_body nick s r) w)
      as [(ph & Hnc & Hres & _)|(_ & Hc & _)]; [|done].
    exfalso. destruct Hr as [->|[e ->]]; [|done].
    cbn in Hres. by injection Hres as <-.
Qed.

Lemma step_closed_socket ph s r w :
  ph ≠ Closed →
  phase_of (_handle_client_step ph s r w) = Closed →
  s ∈ closed (st (_handle_client_step ph s r w)).
Proof.
  intros Hph. destruct ph as [|nick|]; [| |done]; cbn [_handle_client_step].
  - destruct (guarded_cases_body s [] (read_nickname s r) w)
      as [(ph & Hnc & Hres & ->)|(_ & _ & ->)].
    + unfold phase_of. rewrite Hres. by intros [= ->].
    + intros _. apply closed_finally.
  - destruct (guarded_cases_body s nick (loop_body nick s r) w)
      as [(ph & Hnc & Hres & ->)|(_ & _ & ->)].
    + unfold phase_of. rewrite Hres. by intros [= ->].
    + intros _. apply closed_finally.
Qed.

Lemma handle_client_from_cons ph s r script w :
  ph ≠ Closed →
  _handle_client_from ph s (r :: script) w =
    let o := _handle_client_step ph s r w in
    let '(ph', w', tr) := _handle_client_from (phase_of o) s script (st o) in
    (ph', w', evs o ++ tr).
Proof. by destruct ph. Qed.

(** X16. A worker always cleans up.  Whatever a connection sends, once one
    of its reads comes back empty (the peer closed) or raises, the run of
    [_handle_client] has ended with the connection out of the registry and
    its socket closed. *)
Theorem worker_always_cleans_up s script w i r :
  wf (clients w) →
  script !! i = Some r →
  (r = RecvText [] ∨ ∃ e, r = RecvRaise e) →
  let out := _handle_client s script w in
  out.1.1 = Closed ∧
  (s ∉ keys (clients out.1.2)) ∧ s ∈ closed out.1.2.
Proof.
  intros Hwf Hi Hr. cbn zeta. unfold _handle_client.
  assert (Hph : AwaitingNickname ≠ Closed) by done.
  revert Hph Hwf Hi. generalize AwaitingNickname. revert w i.
  induction script as [|r0 script IH]; intros w i ph Hph Hwf Hi; [done|].
  rewrite handle_client_from_cons by done. cbn zeta.
  destruct (step_registry ph s r0 w Hwf Hph) as (Hwf' & _ & Hout & _).
  pose proof (step_closed_socket ph s r0 w Hph) as Hcl.
  destruct (phase_of (_handle_client_step ph s r0 w)) as [|nick|] eqn:Hp.
  - destruct i as [|i]; cbn in Hi.
    + injection Hi as ->. rewrite step_ends_on_failure in Hp by done. done.
    + specialize (IH _ i AwaitingNickname ltac:(done) Hwf' Hi).
      by destruct (_handle_client_from _ _ _ _) as [[ph' w'] tr].
  - destruct i as [|i]; cbn in Hi.
    + injection Hi as ->. rewrite step_ends_on_failure in Hp by done. done.
    + specialize (IH _ i (Active nick) ltac:(done) Hwf' Hi).
      by destruct (_handle_client_from _ _ _ _) as [[ph' w'] tr].
  - rewrite handle_client_from_closed. cbn [fst snd]. auto.
Qed.

Lemma worker_always_cleans_up_witness :
  let out := _handle_client 3 [RecvText (lit "D"); RecvText (lit "hi");
                               RecvRaise ConnectionResetError] three_sessions in
  out.1.1 = Closed ∧
  (3 ∉ keys (clients out.1.2)) ∧ 3 ∈ closed out.1.2.
Proof.
  apply (worker_always_cleans_up 3 _ three_sessions 2
           (RecvRaise ConnectionResetError)).
  - exact three_sessions_wf.
  - reflexivity.
  - right. by exists ConnectionResetError.
Defined.

Lemma get_after_join_broadcast s n w :
  wf (clients w) →
  default n (get s (clients (st (_broadcast (joined_text n) (registered s n w)))))
    = n.
Proof.
  intros Hwf. rewrite clients_broadcast by (by apply wf_set).
  rewrite (get_filter (λ k, writable (registered s n w) k)).
  case_decide; [|done]. cbn [registered set_clients clients].
  rewrite get_set. by rewrite decide_True.
Qed.

(** X17. A session that registers and then goes away is seen by the others
    as a join followed by a departure.  For a connection that sends a
    nickname and is then closed by its peer, every connection registered
    before it that can be written to receives exactly the join notice and
    then the departure notice for that nickname and keeps its registry
    entry; the new connection itself receives the join notice only; and it
    ends out of the registry with its socket closed. *)
Theorem join_then_leave_observed s data w :
  wf (clients w) → s ∉ keys (clients w) → strip data ≠ [] →
  let n := strip data in
  let out := _handle_client s [RecvText data; RecvText []] w in
  out.1.1 = Closed ∧
  (∀ r, r ∈ keys (clients w) → writable w r →
        received r out.2 = [frame (joined_text n); frame (left_text n)] ∧
        get r (clients out.1.2) = get r (clients w)) ∧
  (writable w s → received s out.2 = [frame (joined_text n)]) ∧
  (s ∉ keys (clients out.1.2)) ∧ s ∈ closed out.1.2.
Proof.
  intros Hwf Hs Hn. cbn zeta. unfold _handle_client.
  set (n := strip data). set (w1 := registered s n w).
  set (w2 := st (_broadcast (joined_text n) w1)).
  assert (Hrun : _handle_client_from AwaitingNickname s
                   [RecvText data; RecvText []] w =
                 (Closed, st (finally_block s n w2),
                  ([EvAcquire; EvRelease; EvSystem (n ++ JOINED)]
                     ++ evs (_broadcast (joined_text n) w1))
                    ++ evs (finally_block s n w2))).
  { rewrite handle_client_from_cons by done. cbn zeta.
    rewrite step_join by done. unfold phase_of at 1. cbn [res st evs].
    fold n. fold w1. fold w2.
    rewrite handle_client_from_cons by done. cbn zeta.
    rewrite (step_active_ends n s (RecvText []) w2 (Ok Closed) [])
      by (done || by left).
    unfold phase_of. cbn [res st evs]. rewrite handle_client_from_closed.
    by rewrite app_nil_r. }
  rewrite Hrun. clear Hrun. cbn [fst snd].
  assert (Hwf1 : wf (clients w1)) by (by apply wf_set).
  assert (Hwf2 : wf (clients w2)) by (by apply wf_broadcast).
  assert (Hdn : default n (get s (clients w2)) = n)
    by (by apply get_after_join_broadcast).
  assert (Hkeys1 : ∀ r, r ∈ keys (clients w) ∨ r = s → r ∈ keys (clients w1))
    by (intros r; unfold w1; by rewrite keys_registered).
  split_and!.
  - done.
  - intros r Hr Hwr.
    assert (Hne : r ≠ s) by (intros ->; done).
    assert (Hr2 : r ∈ keys (clients w2)).
    { apply keys_broadcast; [done|]. split; [apply Hkeys1; by left|done]. }
    assert (Hw2 : writable w2 r).
    { apply writable_after_broadcast; [apply Hkeys1; by left|done]. }
    split.
    + rewrite !received_app. cbn [received app].
      rewrite received_broadcast by done.
      rewrite decide_True by (split; [apply Hkeys1; by left|done]).
      rewrite received_finally by done. rewrite Hdn.
      rewrite decide_True; [done|]. split_and!; done.
    + rewrite get_finally by done. unfold w2.
      rewrite clients_broadcast by done.
      rewrite (get_filter (λ k, writable w1 k)).
      rewrite decide_True by done. cbn [w1 registered set_clients clients].
      rewrite get_set. by rewrite decide_False.
  - intros Hws. rewrite !received_app. cbn [received app].
    rewrite received_broadcast by done.
    rewrite decide_True by (split; [apply Hkeys1; by right|done]).
    rewrite received_finally by done. rewrite decide_False; [done|]. tauto.
  - by apply clients_finally.
  - apply closed_finally.
Qed.

Lemma join_then_leave_observed_witness :
  let n := strip (lit " D ") in
  let out := _handle_client 3 [RecvText (lit " D "); RecvText []] three_sessions in
  out.1.1 = Closed ∧
  (∀ r, r ∈ keys (clients three_sessions) → writable three_sessions r →
        received r out.2 = [frame (joined_text n); frame (left_text n)] ∧
        get r (clients out.1.2) = get r (clients three_sessions)) ∧
  (writable three_sessions 3 → received 3 out.2 = [frame (joined_text n)]) ∧
  (3 ∉ keys (clients out.1.2)) ∧ 3 ∈ closed out.1.2.
Proof.
  apply (join_then_leave_observed 3 (lit " D ") three_sessions).
  - exact three_sessions_wf.
  - vm_compute. intros H.
    repeat (apply elem_of_cons in H as [H|H]; [discriminate H|]).
    by apply elem_of_nil in H.
  - vm_compute. discriminate.
Defined.

(** ** Who speaks for the server *)

Lemma server_prefix : lit "서버" ++ PROMPT = SERVER.
Proof. vm_compute. reflexivity. Qed.

(** X18. No nickname is reserved.  The name the server signs its own notices
    with is accepted like any other, and a chat line from a session
    registered under it is broadcast as the very text a server notice with
    the same message has: the world it leaves and what each connection
    receives are those of [_broadcast_system] on that message. *)
Theorem server_nickname_not_reserved s data w :
  data ≠ [] → is_chat (strip data) →
  res (_handle_client_step AwaitingNickname s (RecvText (lit "서버")) w)
    = Ok (Active (lit "서버")) ∧
  let o := _handle_client_step (Active (lit "서버")) s (RecvText data) w in
  let a := _broadcast_system (strip data) w in
  res o = Ok (Active (lit "서버")) ∧
  st o = st a ∧
  deliveries (evs o) = deliveries (evs a) ∧
  (∀ r, received r (evs o) = received r (evs a)).
Proof.
  intros Hd Hchat. split.
  - assert (Hs : strip (lit "서버") = lit "서버") by (vm_compute; reflexivity).
    rewrite step_join by (rewrite Hs; vm_compute; discriminate).
    cbn [res]. by rewrite Hs.
  - cbn zeta. rewrite step_chat by done. rewrite broadcast_system_run.
    unfold chat_text, system_text. rewrite app_assoc, server_prefix.
    cbn [res st evs deliveries received]. done.
Qed.

Lemma server_nickname_not_reserved_witness :
  res (_handle_client_step AwaitingNickname 3 (RecvText (lit "서버"))
         three_sessions)
    = Ok (Active (lit "서버")) ∧
  let o := _handle_client_step (Active (lit "서버")) 3
             (RecvText (lit "A님이 퇴장하셨습니다.")) three_sessions in
  let a := _broadcast_system (strip (lit "A님이 퇴장하셨습니다.")) three_sessions in
  res o = Ok (Active (lit "서버")) ∧
  st o = st a ∧
  deliveries (evs o) = deliveries (evs a) ∧
  (∀ r, received r (evs o) = received r (evs a)).
Proof.
  apply (server_nickname_not_reserved 3 (lit "A님이 퇴장하셨습니다.")
           three_sessions).
  - vm_compute. discriminate.
  - split; [vm_compute; discriminate|vm_compute; reflexivity].
Defined.

(** ** The life of the server *)

(** X19. However the server ran, [start] ends by shutting down.  [_shutdown]
    does not fail; afterwards the registry is empty and the listening socket
    closed; every connection that was registered is closed, and received the
    shutdown notice exactly once if its peer was still there.  A connection
    that was accepted but had not sent its nickname is not in the registry:
    it gets no notice and its socket is left open. *)
Theorem start_ends_in_shutdown ls σ :
  run init ls = Some σ →
  ∃ sv tr,
    start ls = Some (Ok tt, sv, tr) ∧
    clients (core sv) = [] ∧ server_socket_open sv = false ∧
    (∀ s nick, get s (clients (srv σ)) = Some nick →
       s ∈ closed (core sv) ∧
       received s tr =
         if decide (peer_fault (srv σ) !! s = None)
         then [frame SHUTDOWN] else []) ∧
    (∀ s, workers σ !! s = Some AwaitingNickname →
       (s ∉ closed (core sv)) ∧ received s tr = []).
Proof.
  intros Hrun.
  assert (Hr : reachable σ) by (by exists ls).
  destruct (reachable_server_sound σ Hr) as (_ & Hok & Hreg & _ & Hclosed).
  destruct Hok as (Hwf & Hcl & _).
  unfold start. rewrite Hrun. unfold _shutdown. cbn [core server_socket_open].
  rewrite shutdown_clients_run by done. cbn [res st evs].
  eexists _, _. split; [reflexivity|]. cbn [core server_socket_open clients closed].
  split_and!; [done|done| |].
  - intros s nick Hg.
    assert (Hin : s ∈ keys (clients (srv σ))).
    { destruct (decide (s ∈ keys (clients (srv σ)))) as [|Hout]; [done|].
      apply get_None in Hout. congruence. }
    split.
    + apply elem_of_union. left. by apply elem_of_list_to_set.
    + cbn [received]. rewrite received_app. cbn [received].
      rewrite app_nil_r, received_bind_notify by done.
      apply decide_ext. unfold writable, send_fault.
      rewrite decide_False by (intros Hc; by apply (Hcl s Hc)). tauto.
  - intros s Hw.
    assert (Hout : s ∉ keys (clients (srv σ))).
    { intros Hin. destruct (get s (clients (srv σ))) as [v|] eqn:Hg;
        [|by apply get_None in Hg].
      apply Hreg in Hg. congruence. }
    split.
    + rewrite elem_of_union, elem_of_list_to_set. intros [?|Hc]; [done|].
      destruct (Hclosed s Hc) as (ph & Hph & Hne). congruence.
    + cbn [received]. rewrite received_app. cbn [received].
      rewrite app_nil_r, received_bind_notify by done.
      rewrite decide_False; [done|]. tauto.
Qed.

Lemma start_ends_in_shutdown_witness :
  ∃ sv tr,
    start [LAccept; LRecv 0 (RecvText (lit " A ")); LAccept] = Some (Ok tt, sv, tr) ∧
    clients (core sv) = [] ∧ server_socket_open sv = false ∧
    (∀ s nick,
       get s (clients (srv (default init
         (run init [LAccept; LRecv 0 (RecvText (lit " A ")); LAccept]))))
         = Some nick →
       s ∈ closed (core sv) ∧
       received s tr =
         if decide (peer_fault (srv (default init
              (run init [LAccept; LRecv 0 (RecvText (lit " A ")); LAccept])))
              !! s = None)
         then [frame SHUTDOWN] else []) ∧
    (∀ s, workers (default init
            (run init [LAccept; LRecv 0 (RecvText (lit " A ")); LAccept]))
            !! s = Some AwaitingNickname →
       (s ∉ closed (core sv)) ∧ received s tr = []).
Proof.
  apply (start_ends_in_shutdown
           [LAccept; LRecv 0 (RecvText (lit " A ")); LAccept]).
  vm_compute. reflexivity.
Defined.

(** ** Events that are no announcements *)

Lemma quiet_send_text s text w : quiet (evs (_send_text s text w)).
Proof.
  rewrite send_text_run. unfold send_event, quiet.
  destruct (send_fault w s); by repeat constructor.
Qed.

Lemma quiet_broadcast text w : quiet (evs (_broadcast text w)).
Proof.
  rewrite broadcast_run. cbn [evs]. unfold quiet.
  apply Forall_cons. split; [done|]. rewrite !Forall_app. split_and!.
  - apply Forall_fmap, Forall_true. intros k. cbn. unfold send_event.
    by destruct (send_fault w k).
  - by apply Forall_fmap, Forall_true.
  - by repeat constructor.
Qed.

Lemma quiet_bind {A B} (m : M A) (k : A → M B) w :
  quiet (evs (m w)) → (∀ a w', quiet (evs (k a w'))) →
  quiet (evs ((m ≫= k) w)).
Proof.
  intros Hm Hk. rewrite evs_bind. apply Forall_app. split; [done|].
  destruct (res (m w)); [apply Hk|constructor].
Qed.

Lemma quiet_handle_whisper sender raw s w :
  quiet (evs (_handle_whisper sender raw s w)).
Proof.
  unfold _handle_whisper. case_bool_decide; [apply quiet_send_text|].
  destruct (split SPACE 2 raw) as [|a [|b [|c [|d l]]]]; try by constructor.
  unfold whisper. apply quiet_bind.
  { rewrite find_socket_run. by repeat constructor. }
  intros [t|] w'; [|apply quiet_send_text].
  apply quiet_bind; [apply quiet_send_text|]. intros [] w''.
  case_decide; [apply quiet_send_text|constructor].
Qed.

Lemma quiet_loop_body nick s r w : quiet (evs (loop_body nick s r w)).
Proof.
  destruct r as [data|e]; [|constructor].
  unfold loop_body, _recv_text. rewrite evs_bind.
  cbn [mret M_ret ret res st evs app].
  destruct data as [|c data]; [constructor|].
  case_decide.
  - apply quiet_bind; [apply quiet_send_text|]. intros; constructor.
  - destruct (_ || _).
    + apply quiet_bind; [apply quiet_handle_whisper|]. intros; constructor.
    + apply quiet_bind; [apply quiet_broadcast|]. intros; constructor.
Qed.

Lemma count_joins_app tr1 tr2 :
  count_joins (tr1 ++ tr2) = count_joins tr1 + count_joins tr2.
Proof. unfold count_joins. by rewrite filter_app, length_app. Qed.

Lemma count_joins_quiet tr : quiet tr → count_joins tr = 0.
Proof.
  unfold count_joins. induction 1 as [|ev tr Hev _ IH]; [done|].
  rewrite filter_cons. destruct ev; try done.
  by destruct (Hev message).
Qed.

Lemma count_departures_quiet tr : quiet tr → count_departures tr = 0.
Proof.
  unfold count_departures. induction 1 as [|ev tr Hev _ IH]; [done|].
  rewrite filter_cons. destruct ev; try done.
  by destruct (Hev message).
Qed.

Lemma endswith_joined_joined nick : endswith JOINED (nick ++ JOINED) = true.
Proof. unfold endswith. rewrite reverse_app. reflexivity. Qed.

Lemma endswith_joined_left nick : endswith JOINED (nick ++ LEFT) = false.
Proof. unfold endswith. rewrite reverse_app. reflexivity. Qed.

(** What the [finally] block announces: the departure, if there is a
    nickname to announce it under, and nothing else. *)
Lemma finally_announcements s nickname w :
  count_joins (evs (finally_block s nickname w)) = 0 ∧
  count_departures (evs (finally_block s nickname w)) =
    match default nickname (get s (clients w)) with [] => 0 | _ => 1 end.
Proof.
  rewrite finally_block_run. unfold prepend. cbn [evs].
  rewrite count_joins_app, count_departures_app.
  assert (count_departures [EvAcquire; EvRelease; EvClose s] = 0) as ->
    by reflexivity.
  assert (count_joins [EvAcquire; EvRelease; EvClose s] = 0) as ->
    by reflexivity.
  destruct (default nickname (get s (clients w))) as [|c n]; [done|].
  rewrite broadcast_system_run. cbn [evs].
  change (EvSystem ((c :: n) ++ LEFT) :: ?t)
    with ([EvSystem ((c :: n) ++ LEFT)] ++ t).
  rewrite count_joins_app, count_departures_app.
  rewrite (count_joins_quiet _ (quiet_broadcast _ _)),
    (count_departures_quiet _ (quiet_broadcast _ _)).
  unfold count_joins, count_departures. rewrite !filter_cons.
  cbn [is_join is_departure].
  by rewrite endswith_joined_left, endswith_left_left.
Qed.

(** What one step of a worker announces, by the phases it leads from and
    to. *)
Lemma step_announcements ph s r w :
  (ph = AwaitingNickname → get s (clients w) = None) →
  (∀ nick, ph = Active nick →
     nick ≠ [] ∧ ∀ v, get s (clients w) = Some v → v ≠ []) →
  let o := _handle_client_step ph s r w in
  (count_joins (evs o), count_departures (evs o)) =
    match ph, phase_of o with
    | AwaitingNickname, Active _ => (1, 0)
    | Active _, Closed => (0, 1)
    | _, _ => (0, 0)
    end.
Proof.
  intros Hawait Hactive. cbn zeta.
  destruct ph as [|nick|]; cbn [_handle_client_step]; [| |done].
  - specialize (Hawait eq_refl).
    assert (Hfin : ∀ w', clients w' = clients w →
      count_joins (evs (finally_block s [] w')) = 0 ∧
      count_departures (evs (finally_block s [] w')) = 0).
    { intros w' Hc. destruct (finally_announcements s [] w') as [-> ->].
      by rewrite Hc, Hawait. }
    destruct r as [data|e].
    + destruct (strip data) as [|c n] eqn:Hn.
      * rewrite (guarded_leave _ _ _ _ _ _ (read_nickname_empty s data w Hn)).
        unfold phase_of. cbn [res evs].
        rewrite count_joins_app, count_departures_app.
        by destruct (Hfin (World (clients w) (peer_fault w) ({[s]} ∪ closed w))
                       eq_refl) as [-> ->].
      * assert (Hne : strip data ≠ []) by (by rewrite Hn).
        pose proof (read_nickname_join s data w Hne) as Hb.
        unfold prepend in Hb.
        rewrite (guarded_stay _ _ _ _ _ _ _ Hb) by done.
        unfold phase_of. cbn [res evs].
        change ([EvAcquire; EvRelease; EvSystem (strip data ++ JOINED)] ++ ?t)
          with ([EvAcquire; EvRelease] ++ [EvSystem (strip data ++ JOINED)] ++ t).
        rewrite !count_joins_app, !count_departures_app.
        rewrite (count_joins_quiet _ (quiet_broadcast _ _)),
          (count_departures_quiet _ (quiet_broadcast _ _)).
        unfold count_joins, count_departures. rewrite !filter_cons.
        cbn [is_join is_departure].
        by rewrite endswith_joined_joined, endswith_left_joined.
    + assert (Hb : read_nickname s (RecvRaise e) w = Out (Raise e) w [])
        by reflexivity.
      rewrite (guarded_raise _ _ _ _ _ _ _ Hb). cbn [evs app].
      destruct (Hfin w eq_refl) as [-> ->].
      unfold phase_of. cbn [res]. by destruct (caught e).
  - destruct (Hactive nick eq_refl) as [Hnick Hreg].
    pose proof (quiet_loop_body nick s r w) as Hq.
    destruct (guarded_cases s nick (loop_body nick s r) w)
      as [(ph & Hph & Hr & _ & He)|(Hph & _ & He)]; rewrite He.
    + rewrite count_joins_quiet, count_departures_quiet by done.
      unfold phase_of. rewrite Hr. by destruct ph.
    + rewrite Hph, count_joins_app, count_departures_app.
      rewrite count_joins_quiet, count_departures_quiet by done.
      destruct (finally_announcements s nick (st (loop_body nick s r w)))
        as [-> ->].
      assert (Hc : clients (st (loop_body nick s r w)) = clients w).
      { destruct (loop_body_st nick s r w) as [->|[text Hb]]; [done|].
        exfalso. revert Hph. by rewrite (guarded_stay _ _ _ _ _ _ _ Hb). }
      rewrite Hc. destruct (get s (clients w)) as [v|] eqn:Hg; cbn [default].
      * specialize (Hreg v eq_refl). by destruct v.
      * by destruct nick.
Qed.

Lemma joins_app s l1 l2 : joins s (l1 ++ l2) = joins s l1 + joins s l2.
Proof. unfold joins. by rewrite filter_app, length_app. Qed.

Lemma joins_tagged s t tr :
  joins s (pair t <$> tr) = if decide (s = t) then count_joins tr else 0.
Proof.
  unfold joins, count_joins.
  induction tr as [|ev tr IH]; [by case_decide|].
  rewrite fmap_cons, !filter_cons. cbn [fst snd].
  destruct (decide (s = t)) as [->|Hne].
  - destruct (is_join ev).
    + rewrite !decide_True by done. cbn [length]. by rewrite IH.
    + rewrite !decide_False by (try intros [_ ?]; done). done.
  - rewrite decide_False by (intros [? _]; done). done.
Qed.

Lemma announcements_paired_step σ l σ' :
  server_sound σ → announcements_paired σ → step σ l = Some σ' →
  announcements_paired σ'.
Proof.
  intros (Hfresh & Hok & Hreg & Hnick & Hclosed) Hp Hstep.
  destruct l as [|s r|s e]; cbn [step] in Hstep.
  - injection Hstep as <-. intros s. cbn [workers log].
    destruct (decide (s = next_sock σ)) as [->|Hne].
    + rewrite lookup_insert_eq. specialize (Hp (next_sock σ)).
      by rewrite Hfresh in Hp by lia.
    + rewrite lookup_insert_ne by done. apply Hp.
  - destruct (workers σ !! s) as [ph|] eqn:Hph; [|done].
    assert (Hnc : ph ≠ Closed) by (intros ->; done).
    assert (Hsome : Some σ' =
      Some (System (st (_handle_client_step ph s r (srv σ))) (next_sock σ)
              (<[s := phase_of (_handle_client_step ph s r (srv σ))]> (workers σ))
              (log σ ++ (pair s <$> evs (_handle_client_step ph s r (srv σ))))))
      by (rewrite <- Hstep; by destruct ph).
    injection Hsome as ->. clear Hstep.
    assert (Hawait : ph = AwaitingNickname →
              (s ∉ keys (clients (srv σ))) ∧ (s ∉ closed (srv σ))).
    { intros ->. split.
      - intros Hin. destruct (get s (clients (srv σ))) as [v|] eqn:Hg;
          [|by apply get_None in Hg].
        apply Hreg in Hg. congruence.
      - intros Hin. destruct (Hclosed s Hin) as (ph & Hw & Hne). congruence. }
    destruct (step_world ph s r (srv σ) Hok Hnc Hawait)
      as (_ & _ & _ & _ & _ & Hna).
    assert (Hcount := step_announcements ph s r (srv σ)).
    cbn zeta in Hcount. set (o := _handle_client_step ph s r (srv σ)) in *.
    assert (Hc : (count_joins (evs o), count_departures (evs o)) =
                 match ph, phase_of o with
                 | AwaitingNickname, Active _ => (1, 0)
                 | Active _, Closed => (0, 1)
                 | _, _ => (0, 0)
                 end).
    { apply Hcount.
      - intros ->. apply get_None. by apply Hawait.
      - intros nick ->. split; [by apply (Hnick s nick)|].
        intros v Hg. by apply (proj2 (proj2 Hok) s v). }
    clear Hcount. intros s'. cbn [workers log].
    rewrite joins_app, departures_app, joins_tagged, departures_tagged.
    specialize (Hp s').
    destruct (decide (s' = s)) as [->|Hne].
    + rewrite lookup_insert_eq. rewrite Hph in Hp.
      destruct ph as [|nick|]; [| |done];
        destruct (phase_of o); try done; injection Hc as -> ->; lia.
    + by rewrite lookup_insert_ne, !Nat.add_0_r by done.
  - destruct (workers σ !! s); [|done]. by injection Hstep as <-.
Qed.

Lemma reachable_announcements_paired σ :
  reachable σ → announcements_paired σ.
Proof.
  intros [ls Hrun].
  enough (server_sound σ ∧ announcements_paired σ) by tauto.
  eapply (run_invariant (λ σ, server_sound σ ∧ announcements_paired σ));
    [| |exact Hrun].
  - intros σ1 l σ2 [Hs Hp] Hstep. split.
    + by eapply server_sound_step.
    + by eapply announcements_paired_step.
  - split; [apply server_sound_init|]. intros s. by cbn.
Qed.

(** ** Whisper, again *)

Lemma received_send_text_other s text w r :
  r ≠ s → received r (evs (_send_text s text w)) = [].
Proof.
  intros Hne. rewrite send_text_run. unfold send_event.
  destruct (send_fault w s); cbn [evs received]; [done|].
  by rewrite decide_False by congruence.
Qed.

(** X20. A whisper is private and leaves the server as it is.  Whatever the
    line and whichever writes fail, [_handle_whisper] does not change the
    registry or close anything, makes no announcement, and writes to no
    connection other than the sender's own and the one the target name
    resolves to; all its writes happen with the registry lock free. *)
Theorem whisper_is_private sender raw s w :
  let o := _handle_whisper sender raw s w in
  st o = w ∧
  (∀ message, EvSystem message ∉ evs o) ∧
  (∀ r, r ≠ s →
     (∀ cmd target body, split SPACE 2 raw = [cmd; target; body] →
        find_nick target (clients w) ≠ Some r) →
     received r (evs o) = []) ∧
  writes_unlocked false (evs o) = true.
Proof.
  cbn zeta. split; [apply st_handle_whisper|]. split.
  { intros m Hin. pose proof (quiet_handle_whisper sender raw s w) as Hq.
    unfold quiet in Hq. rewrite Forall_forall in Hq. by apply (Hq _ Hin m). }
  unfold _handle_whisper. case_bool_decide as Hlen.
  - rewrite send_text_run. cbn [evs]. unfold send_event. split.
    + intros r Hne _. destruct (send_fault w s); cbn [received]; [done|].
      by rewrite decide_False by congruence.
    + by destruct (send_fault w s).
  - destruct (split SPACE 2 raw) as [|cmd [|target [|body [|d l]]]] eqn:Hp;
      cbn [length] in Hlen; try lia.
    + unfold whisper. rewrite evs_bind, find_socket_run. cbn [res st evs].
      destruct (find_nick target (clients w)) as [t|] eqn:Hf.
      * rewrite evs_bind, !send_text_run. cbn [res st evs]. unfold send_event.
        split.
        -- intros r Hne Hr. assert (Hrt : t ≠ r).
           { intros ->. by apply (Hr cmd target body). }
           destruct (send_fault w t); cbn [app received]; [done|].
           rewrite decide_False by done.
           case_decide; [|done]. by apply received_send_text_other.
        -- destruct (send_fault w t); cbn [app writes_unlocked negb andb];
             [done|].
           case_decide; [|done]. rewrite send_text_run. cbn [evs].
           unfold send_event. by destruct (send_fault w s).
      * rewrite send_text_run. cbn [evs app]. unfold send_event. split.
        -- intros r Hne _. destruct (send_fault w s); cbn [received]; [done|].
           by rewrite decide_False by congruence.
        -- by destruct (send_fault w s).
    + cbn [raise evs]. by split.
Qed.

(** ** Joins and departures *)

(** X21. Joins and departures are announced in pairs.  In every reachable
    state, a worker still waiting for its nickname has announced nothing; a
    worker in its message loop has announced its join, once, and no
    departure; and a worker that has ended has announced its departure
    exactly as often as its join, which is at most once. *)
Theorem joins_and_departures_paired σ s :
  reachable σ →
  match workers σ !! s with
  | Some (Active _) => joins s (log σ) = 1 ∧ departures s (log σ) = 0
  | Some Closed => departures s (log σ) = joins s (log σ) ∧ joins s (log σ) ≤ 1
  | _ => joins s (log σ) = 0 ∧ departures s (log σ) = 0
  end.
Proof. intros Hr. by apply reachable_announcements_paired. Qed.

Lemma session_over_reachable : reachable session_over.
Proof.
  exists [LAccept; LRecv 0 (RecvText (lit " A ")); LRecv 0 (RecvText QUIT)].
  vm_compute. reflexivity.
Defined.

Lemma joins_and_departures_paired_witness :
  (joins 0 (log one_session) = 1 ∧ departures 0 (log one_session) = 0) ∧
  (departures 0 (log session_over) = joins 0 (log session_over) ∧
   joins 0 (log session_over) ≤ 1).
Proof.
  split.
  - exact (joins_and_departures_paired one_session 0 one_session_reachable).
  - exact (joins_and_departures_paired session_over 0 session_over_reachable).
Defined.
